(** * Distributed histogram of [get_counts.cpp] and [sampler_test.cpp]

    A shallow embedding of the MPI histogram pipeline that both source files
    share: rank 0 loads [input.bin], the samples are scattered in equal
    contiguous slices, every rank counts the values below [MAXVAL] of its
    slice, the local histograms are summed at rank 0 and the non-empty
    buckets are written to [output.json].

    Conventions of the embedding.
    - A [uint32_t], an [int] and the 64-bit stream offset are integers of [Z];
      every conversion the C++ code performs implicitly is written out
      ([to_uint32], [to_uint64], [to_int]).  An [int] that leaves its range
      wraps around in two's complement, which is what the compiled code does
      on the machines the job scripts target.
    - The data model is LP64: [std::streamoff] and [size_t] are 64 bits wide.
    - A collective is a function of the values of all ranks: [MPI_Scatter]
      maps the send buffer of the root to the list of receive buffers, indexed
      by rank, and [MPI_Reduce] maps the list of contributions to the buffer
      the root receives.
    - The counts of a collective are [int]s.  [MPI_Scatter] is called with
      the [uint32_t local_n], which is converted at the call: a [local_n]
      above [INT_MAX] arrives as a negative count.  MPI rejects such a call;
      in the embedding it delivers nothing.  What is said about a run of the
      job is said for a [local_n] that fits an [int], unless both sides of an
      equation make the same call.
    - [sampler_test.cpp] fills [data] and [total_count] from the sampler
      instead of [input.bin]; from [MPI_Bcast] on its lines are those of
      [get_counts.cpp], and one embedding serves both.
    - Memory is assumed sufficient for every [std::vector] and the output file
      is assumed writable. *)

From Stdlib Require Import ZArith Lia List String Ascii Permutation.
From Stdlib Require Import Strings.Byte.
From stdpp Require Import base list numbers list_numbers sorting strings pretty.

Local Open Scope Z_scope.

(** ** Machine integers *)

Module Cxx.

Definition to_uint32 (x : Z) : Z := x mod 2 ^ 32.
Definition to_uint64 (x : Z) : Z := x mod 2 ^ 64.
Definition to_int (x : Z) : Z := (x + 2 ^ 31) mod 2 ^ 32 - 2 ^ 31.

Definition INT_MAX : Z := 2 ^ 31 - 1.
Definition UINT32_MAX : Z := 2 ^ 32 - 1.

(** [sizeof(uint32_t)], a [size_t]. *)
Definition sizeof_uint32 : Z := 4.

End Cxx.
Export Cxx.

(** [const uint32_t BITLEN = 10; const uint32_t MAXVAL = 1 << BITLEN;] *)
Definition BITLEN : Z := 10.
Definition MAXVAL : Z := to_uint32 (Z.shiftl 1 BITLEN).

(** ** The input stream

    What [std::ifstream] does for the four calls of the reader.  A stream
    whose file could not be opened has [failbit] set; [tellg] then answers
    [-1] and [read] stores nothing. *)

Module Ifstream.

Record t : Type := mk {
  contents : list byte;
  gpos : Z;
  failbit : bool
}.

(** [std::ifstream fin(path, std::ios::binary | std::ios::ate)]:
    [None] is a file that cannot be opened. *)
Definition open_ate (file : option (list byte)) : t :=
  match file with
  | Some bytes => mk bytes (Z.of_nat (length bytes)) false
  | None => mk [] 0 true
  end.

Definition tellg (fin : t) : Z :=
  if failbit fin then -1 else gpos fin.

(** [fin.seekg(0, std::ios::beg)] *)
Definition seekg_beg (fin : t) : t :=
  if failbit fin then fin else mk (contents fin) 0 false.

(** [fin.read(p, n)]: the bytes obtained overwrite the front of the memory
    at [p]; fewer than [n] bytes set [failbit]. *)
Definition read (n : Z) (fin : t) (mem : list byte) : t * list byte :=
  if failbit fin then (fin, mem)
  else
    let got := take (Z.to_nat n) (drop (Z.to_nat (gpos fin)) (contents fin)) in
    (mk (contents fin) (gpos fin + Z.of_nat (length got))
        (Z.of_nat (length got) <? n),
     got ++ drop (length got) mem).

End Ifstream.

(** ** Binary Reader (rank 0) *)

Inductive byte_order : Type := LittleEndian | BigEndian.

Definition byte_val (b : byte) : Z := Z.of_N (Byte.to_N b).

(** The [uint32_t] stored in four consecutive bytes of memory. *)
Definition word_of_bytes (native : byte_order) (bs : list byte) : Z :=
  little_endian_to_Z 8
    (byte_val <$> match native with LittleEndian => bs | BigEndian => reverse bs end).

(** The elements of a [std::vector<uint32_t>] whose storage holds [mem]. *)
Fixpoint load_words (native : byte_order) (mem : list byte) : list Z :=
  match mem with
  | b0 :: b1 :: b2 :: b3 :: rest =>
      word_of_bytes native [b0; b1; b2; b3] :: load_words native rest
  | _ => []
  end.

(** Storage of [data] after [data.resize(n)] on the empty vector. *)
Definition resized_storage (n : Z) : list byte :=
  replicate (Z.to_nat (n * sizeof_uint32)) Byte.x00.

(** Lines 20-26 of [get_counts.cpp]: the pair of [total_count] and [data]. *)
Definition Binary_Reader (native : byte_order) (file : option (list byte))
  : Z * list Z :=
  let fin := Ifstream.open_ate file in
  let total_count :=
    to_uint32 (to_uint64 (Ifstream.tellg fin) / sizeof_uint32) in
  let fin := Ifstream.seekg_beg fin in
  let mem := resized_storage total_count in
  let '(_, mem) := Ifstream.read (total_count * sizeof_uint32) fin mem in
  (total_count, load_words native mem).

(** ** Distributor *)

(** [uint32_t local_n = total_count / size;] with [int size] converted to
    [unsigned]. *)
Definition local_n_of (total_count size : Z) : Z :=
  to_uint32 (total_count / to_uint32 size).

(** [int MPI_Scatter(sendbuf, int sendcount, MPI_UNSIGNED, recvbuf,
    int recvcount, MPI_UNSIGNED, 0, MPI_COMM_WORLD)] with the same [count]
    for [sendcount] and [recvcount]: the receive buffer of rank [r] is block
    [r] of the send buffer.  [count] is the [int] the library receives, so a
    caller holding a value of another type converts it; no element is moved
    for a count that is not positive. *)
Definition MPI_Scatter (sendbuf : list Z) (count size : Z) : list (list Z) :=
  (fun r : nat => take (Z.to_nat count) (drop (r * Z.to_nat count) sendbuf))
    <$> seq 0 (Z.to_nat size).

(** ** Local Histogrammer *)

(** [local_hist[v]++] on a [std::vector<int>]. *)
Definition increment (local_hist : list Z) (v : Z) : list Z :=
  alter (fun c => to_int (c + 1)) (Z.to_nat v) local_hist.

Definition count_sample (local_hist : list Z) (v : Z) : list Z :=
  if v <? MAXVAL then increment local_hist v else local_hist.

(** [std::vector<int> local_hist(MAXVAL, 0); for (auto v : local_data) ...] *)
Definition local_histogram (local_data : list Z) : list Z :=
  foldl count_sample (replicate (Z.to_nat MAXVAL) 0) local_data.

(** ** Global Reducer *)

(** [MPI_SUM] on [MPI_INT]. *)
Definition MPI_SUM (a b : Z) : Z := to_int (a + b).

(** [MPI_Reduce(local_hist, global_hist, MAXVAL, MPI_INT, MPI_SUM, 0, ...)]:
    the contributions, listed in the order in which the library combines
    them, are summed element by element. *)
Definition MPI_Reduce (sendbufs : list (list Z)) : list Z :=
  match sendbufs with
  | [] => []
  | h :: hs => foldl (zip_with MPI_SUM) h hs
  end.

(** ** Sparse JSON Emitter (rank 0) *)

Definition dquote : string := String (ascii_of_nat 34) EmptyString.
Definition newline : string := String (ascii_of_nat 10) EmptyString.

(** The stream [fout] and the flag [first]. *)
Record emitter : Type := mk_emitter {
  fout : string;
  first : bool
}.

(** Body of the loop over [i]. *)
Definition emit_bucket (global_hist : list Z) (st : emitter) (i : Z) : emitter :=
  let c := global_hist !!! Z.to_nat i in
  if 0 <? c then
    let sep := if first st then EmptyString else "," in
    mk_emitter
      (fout st +:+ sep +:+ dquote +:+ pretty i +:+ dquote +:+ ":" +:+ pretty c)
      false
  else st.

Definition Sparse_JSON_Emitter (global_hist : list Z) : string :=
  let st := foldl (emit_bucket global_hist) (mk_emitter "{" true) (seqZ 0 MAXVAL) in
  fout st +:+ "}" +:+ newline.

(** ** The job *)

(** The two files the program touches; [None] is a file that does not exist
    or cannot be opened. *)
Record files : Type := mk_files {
  input_bin : option (list byte);
  output_json : option string
}.

Definition rank_order (size : Z) : list nat := seq 0 (Z.to_nat size).

(** Lines 29-48 of [get_counts.cpp] (155-174 of [sampler_test.cpp]): the
    histogram rank 0 holds after the reduction, when the library combines
    the contributions of the ranks in the order [arrival].  The two count
    arguments of [MPI_Scatter] are [local_n], a [uint32_t], converted to the
    [int] of the parameters. *)
Definition global_histogram_by (arrival : list nat)
    (total_count : Z) (data : list Z) (size : Z) : list Z :=
  let local_n := local_n_of total_count size in
  let local_hists :=
    local_histogram <$> MPI_Scatter data (to_int local_n) size in
  MPI_Reduce ((fun r => local_hists !!! r) <$> arrival).

Definition global_histogram (data : list Z) (size : Z) : list Z :=
  global_histogram_by (rank_order size) (Z.of_nat (length data)) data size.

(** [main] of [get_counts.cpp] run on [size] ranks: the exit status of rank 0
    and the files it leaves behind.  [main] has a single [return], of 0, and
    no branch leads rank 0 past the block that writes [output.json]. *)
Definition main_by (arrival : list nat) (native : byte_order) (size : Z)
    (fs : files) : Z * files :=
  let '(total_count, data) := Binary_Reader native (input_bin fs) in
  let global_hist := global_histogram_by arrival total_count data size in
  (0, mk_files (input_bin fs) (Some (Sparse_JSON_Emitter global_hist))).

Definition main (native : byte_order) (size : Z) (fs : files) : Z * files :=
  main_by (rank_order size) native size fs.

(** ** Specification vocabulary *)

(** A value a [uint32_t] can hold. *)
Definition uint32 (v : Z) : Prop := 0 <= v <= UINT32_MAX.

(** Number of samples equal to [b]. *)
Fixpoint occurrences (b : Z) (samples : list Z) : Z :=
  match samples with
  | [] => 0
  | v :: rest => (if v =? b then 1 else 0) + occurrences b rest
  end.

(** Number of samples strictly below [MAXVAL]. *)
Fixpoint in_range_count (samples : list Z) : Z :=
  match samples with
  | [] => 0
  | v :: rest => (if v <? MAXVAL then 1 else 0) + in_range_count rest
  end.

Definition sumZ (l : list Z) : Z := foldr Z.add 0 l.

(** No bucket of the histogram of [samples] exceeds what an [int] holds. *)
Definition no_overflow (samples : list Z) : Prop :=
  forall b, 0 <= b < MAXVAL -> occurrences b samples <= INT_MAX.

(** What the output file is said to hold: an object whose entries are
    [(bucket, count)] pairs, written key first. *)
Definition json_entry (e : Z * Z) : string :=
  dquote +:+ pretty e.1 +:+ dquote +:+ ":" +:+ pretty e.2.

Definition json_object (es : list (Z * Z)) : string :=
  "{" +:+ String.concat "," (json_entry <$> es) +:+ "}".

(** The buckets [0 .. MAXVAL-1] with their counters, in ascending order. *)
Definition buckets_of (global_hist : list Z) (indices : list Z) : list (Z * Z) :=
  (fun i => (i, global_hist !!! Z.to_nat i)) <$> indices.

Definition buckets (global_hist : list Z) : list (Z * Z) :=
  buckets_of global_hist (seqZ 0 MAXVAL).

Definition positive_buckets (global_hist : list Z) : list (Z * Z) :=
  filter (fun e => 0 < e.2) (buckets global_hist).

Definition nonzero_buckets (global_hist : list Z) : list (Z * Z) :=
  filter (fun e => e.2 <> 0) (buckets global_hist).

(** Every character of a text satisfies [P]. *)
Fixpoint all_chars (P : ascii -> Prop) (s : string) : Prop :=
  match s with
  | EmptyString => True
  | String a rest => P a /\ all_chars P rest
  end.

Definition line_feed : ascii := ascii_of_nat 10.

(** The failure signals a run can give: a non-zero exit status, or no
    output file. *)
Definition failure_signalled (run : Z * files) : Prop :=
  run.1 <> 0 \/ output_json run.2 = None.

(** ** Auxiliary definitions of the proofs *)

(** The emitter after it has written the entries [es]. *)
Definition emitter_after (es : list (Z * Z)) : emitter :=
  mk_emitter ("{" +:+ String.concat "," (json_entry <$> es))
             (bool_decide (es = [])).

(** The element count the reader derives from a file of [len] bytes. *)
Definition count_of_size (len : Z) : Z :=
  to_uint32 (to_uint64 len / sizeof_uint32).

(** The texts [pretty] prints hold digits and, for a negative number, a
    leading minus sign. *)
Definition digit_or_minus (a : ascii) : Prop :=
  (48 <= nat_of_ascii a <= 57)%nat \/ nat_of_ascii a = 45%nat.

Definition on_one_line (a : ascii) : Prop := a <> line_feed.

(** A stream of [2^31] zeros: a file of 8 GiB. *)
Definition eight_GiB_stream : list Z := replicate (Z.to_nat (2 ^ 31)) 0.

(** A stream of [2^32 - 2] zeros: a file of 16 GiB less 8 bytes. *)
Definition overflowing_stream : list Z := replicate (Z.to_nat (2 ^ 32 - 2)) 0.

(** A file of 16 GiB, every byte zero. *)
Definition sixteen_GiB : list byte := replicate (Z.to_nat (2 ^ 34)) Byte.x00.

(** A file of [2^32 - 1] samples, all of them 0: 16 GiB less 4 bytes, every
    byte zero. *)
Definition zero_samples_file : list byte :=
  replicate (4 * Z.to_nat UINT32_MAX) Byte.x00.

(** ** [sampler_test.cpp]: the helper [_split]

    A [std::string] is the list of its characters. *)

(** The vector [elems] and the string [item] of the loop. *)
Record splitter : Type := mk_splitter {
  elems : list (list ascii);
  item : list ascii
}.

(** [if (!item.empty()) elems.push_back(item);] *)
Definition push_item (elems : list (list ascii)) (item : list ascii)
  : list (list ascii) :=
  match item with
  | [] => elems
  | _ :: _ => elems ++ [item]
  end.

(** Body of [for (char ch : s)].  The [if] on a delimiter guards the
    [push_back] alone: [item.clear()] runs on every delimiter. *)
Definition split_char (delim : ascii) (st : splitter) (ch : ascii) : splitter :=
  if Ascii.eqb ch delim
  then mk_splitter (push_item (elems st) (item st)) []
  else mk_splitter (elems st) (item st ++ [ch]).

(** Lines 47-63. *)
Definition _split (s : list ascii) (delim : ascii) : list (list ascii) :=
  let st := foldl (split_char delim) (mk_splitter [] []) s in
  push_item (elems st) (item st).

(** Lines 65-82, the second definition under the same name: it first writes
    [s], two spaces, [delim] and a line end to [std::cerr], then runs the
    same loop.  The result is the text on [std::cerr] and the vector. *)
Definition _split_traced (cerr s : list ascii) (delim : ascii)
  : list ascii * list (list ascii) :=
  let cerr := cerr ++ s ++ [" "; " "]%char ++ [delim] ++ [line_feed] in
  let st := foldl (split_char delim) (mk_splitter [] []) s in
  (cerr, push_item (elems st) (item st)).

(** ** [sampler_test.cpp]: from bit strings to samples *)

(** [isspace] in the C locale. *)
Definition isspace (c : ascii) : bool :=
  let n := nat_of_ascii c in
  (n =? 32)%nat || ((9 <=? n)%nat && (n <=? 13)%nat).

Definition binary_digit (c : ascii) : bool :=
  Ascii.eqb c "0" || Ascii.eqb c "1".

Fixpoint skip_spaces (s : list ascii) : list ascii :=
  match s with
  | c :: rest => if isspace c then skip_spaces rest else s
  | [] => []
  end.

(** The longest run of binary digits [s] starts with. *)
Fixpoint leading_digits (s : list ascii) : list ascii :=
  match s with
  | c :: rest => if binary_digit c then c :: leading_digits rest else []
  | [] => []
  end.

(** The number [digits] spell in base 2, after [acc]. *)
Definition binary_value (acc : Z) (digits : list ascii) : Z :=
  foldl (fun v c => 2 * v + (if Ascii.eqb c "1" then 1 else 0)) acc digits.

Definition ULONG_MAX : Z := 2 ^ 64 - 1.

Inductive exception : Type := std_invalid_argument | std_out_of_range.

(** [std::stoul(b, nullptr, 2)], which is [strtoul] with its two failures
    turned into exceptions: white space is skipped, one sign is accepted,
    the digits are read as far as they go; no digit at all is
    [std::invalid_argument], a value above [ULONG_MAX] is
    [std::out_of_range], and a minus sign negates within [unsigned long].
    (C++11 to C++23 take [strtoul] from C11 and C17, where base 2 has no
    prefix.) *)
Definition stoul_base2 (str : list ascii) : exception + Z :=
  let s := skip_spaces str in
  let '(negative, s) :=
    match s with
    | c :: rest =>
        if Ascii.eqb c "-" then (true, rest)
        else if Ascii.eqb c "+" then (false, rest)
        else (false, s)
    | [] => (false, [])
    end in
  match leading_digits s with
  | [] => inl std_invalid_argument
  | digits =>
      let v := binary_value 0 digits in
      if ULONG_MAX <? v then inl std_out_of_range
      else inr (if negative : bool then to_uint64 (- v) else v)
  end.

(** Lines 143-146: [data.push_back(static_cast<uint32_t>(std::stoul(b,
    nullptr, 2)))] for every [b], until an exception leaves the loop. *)
Fixpoint push_values (bits : list (list ascii)) (data : list Z)
  : exception + list Z :=
  match bits with
  | [] => inr data
  | b :: rest =>
      match stoul_base2 b with
      | inl e => inl e
      | inr v => push_values rest (data ++ [to_uint32 v])
      end
  end.

(** ** [sampler_test.cpp]: writing [input.bin] *)

Definition byte_of_Z (z : Z) : byte :=
  default Byte.x00 (Byte.of_N (Z.to_N (z mod 2 ^ 8))).

(** The four bytes a [uint32_t] occupies in memory. *)
Definition bytes_of_word (native : byte_order) (v : Z) : list byte :=
  let le := byte_of_Z <$> Z_to_little_endian 4 8 v in
  match native with LittleEndian => le | BigEndian => reverse le end.

(** Lines 149-152: [ofs.write(data.data(), data.size() * sizeof(uint32_t))]. *)
Definition store_words (native : byte_order) (data : list Z) : list byte :=
  concat (bytes_of_word native <$> data).

(** ** [sampler_test.cpp]: the job *)

(** How rank 0 ends: [main] returns, or an exception nobody catches ends
    the process, or the program does what C++ gives no meaning to.  The
    files are those left behind. *)
Inductive outcome : Type :=
  | Returned (status : Z) (fs : files)
  | Terminated (e : exception) (fs : files)
  | Undefined.

Section SamplerTest.

(** Lines 103-138, the calls into the quantum SDK: from the name of the
    backend to the bit strings the job measured, [None] when [sampler.run]
    returns a null job. *)
Variable run_sampler : list ascii -> option (list (list ascii)).

(** [main] of [sampler_test.cpp] at rank 0, [env] being what
    [getenv("SLURM_JOB_QPU_RESOURCES")] answers ([None] for a null
    pointer).  A [std::string] built from a null pointer and element 0 of
    an empty vector have no defined behaviour. *)
Definition sampler_test_main (arrival : list nat) (native : byte_order)
    (size : Z) (env : option (list ascii)) (fs : files) : outcome :=
  match env with
  | None => Undefined
  | Some resources =>
      match _split resources "," with
      | [] => Undefined
      | name :: _ =>
          match run_sampler name with
          | None => Returned (-1) fs
          | Some bits =>
              match push_values bits [] with
              | inl e => Terminated e fs
              | inr data =>
                  let total_count := to_uint32 (Z.of_nat (length bits)) in
                  let input := Some (store_words native data) in
                  let global_hist :=
                    global_histogram_by arrival total_count data size in
                  Returned 0
                    (mk_files input (Some (Sparse_JSON_Emitter global_hist)))
              end
          end
      end
  end.

End SamplerTest.

(** ** Vocabulary for [sampler_test.cpp] *)

(** [_split] from the middle of its loop: [elems] is [es], [item] is [it]
    and [s] is still to be read. *)
Definition split_from (delim : ascii) (es : list (list ascii))
    (it s : list ascii) : list (list ascii) :=
  let st := foldl (split_char delim) (mk_splitter es it) s in
  push_item (elems st) (item st).

(** The fields put one after the other with [delim] between them. *)
Fixpoint join_fields (delim : ascii) (fields : list (list ascii)) : list ascii :=
  match fields with
  | [] => []
  | [f] => f
  | f :: rest => f ++ delim :: join_fields delim rest
  end.

(** What [_split] returns: fields that are not empty and hold no delimiter. *)
Definition field_of (delim : ascii) (f : list ascii) : Prop :=
  f <> [] /\ delim ∉ f.

(** A text of binary digits only. *)
Definition bit_string (b : list ascii) : Prop :=
  Forall (fun c => c = "0"%char \/ c = "1"%char) b.

(** The text [s] begins with a character that is neither a digit nor a
    minus sign: a number printed before [s] ends where [s] begins. *)
Definition ends_number (s : string) : Prop :=
  match s with
  | EmptyString => False
  | String c _ => ~ digit_or_minus c
  end.

(** * Proofs *)

(** ** Machine integers *)

(** Case analysis on the tests that guard the conditionals of the goal,
    each outcome turned into the order relation it stands for. *)
Ltac case_Z_tests :=
  repeat case_match;
  repeat match goal with
    | H : _ && _ = true |- _ => apply andb_true_iff in H as [? ?]
    | H : _ && _ = false |- _ => apply andb_false_iff in H as [?|?]
    end;
  rewrite ?Z.leb_le, ?Z.leb_gt, ?Z.ltb_lt, ?Z.ltb_ge, ?Z.eqb_eq, ?Z.eqb_neq
    in *.

Lemma MAXVAL_eq : MAXVAL = 1024.
Proof. reflexivity. Qed.

Lemma to_int_id x : - 2 ^ 31 <= x <= INT_MAX -> to_int x = x.
Proof.
  unfold to_int, INT_MAX. intros Hx.
  rewrite Z.mod_small by lia. lia.
Qed.

Lemma to_int_add_l a b : to_int (to_int a + b) = to_int (a + b).
Proof.
  unfold to_int.
  replace ((a + 2 ^ 31) mod 2 ^ 32 - 2 ^ 31 + b + 2 ^ 31)
    with ((a + 2 ^ 31) mod 2 ^ 32 + b) by lia.
  rewrite Zplus_mod_idemp_l. f_equal. f_equal. lia.
Qed.

Lemma to_int_add_r a b : to_int (a + to_int b) = to_int (a + b).
Proof. rewrite (Z.add_comm a), to_int_add_l. f_equal. lia. Qed.

Lemma to_int_range x : - 2 ^ 31 <= to_int x <= INT_MAX.
Proof.
  unfold to_int, INT_MAX.
  pose proof (Z.mod_pos_bound (x + 2 ^ 31) (2 ^ 32)). lia.
Qed.

Lemma MPI_SUM_comm a b : MPI_SUM a b = MPI_SUM b a.
Proof. unfold MPI_SUM. f_equal. lia. Qed.

Lemma MPI_SUM_assoc a b c : MPI_SUM (MPI_SUM a b) c = MPI_SUM a (MPI_SUM b c).
Proof.
  unfold MPI_SUM. rewrite to_int_add_l, to_int_add_r. f_equal. lia.
Qed.

(** ** Counting *)

Lemma occurrences_app b l k :
  occurrences b (l ++ k) = occurrences b l + occurrences b k.
Proof. induction l as [|v l IH]; simpl; lia. Qed.

Lemma occurrences_nonneg b l : 0 <= occurrences b l.
Proof. induction l as [|v l IH]; simpl; [lia|]. destruct (v =? b); lia. Qed.

Lemma occurrences_le_length b l : occurrences b l <= Z.of_nat (length l).
Proof.
  induction l as [|v l IH]; simpl length; simpl occurrences; [lia|].
  destruct (v =? b); lia.
Qed.

Lemma occurrences_replicate b n v :
  occurrences b (replicate n v) = if v =? b then Z.of_nat n else 0.
Proof.
  induction n as [|n IH]; [by destruct (v =? b)|].
  rewrite replicate_S. change (occurrences b (v :: replicate n v))
    with ((if v =? b then 1 else 0) + occurrences b (replicate n v)).
  rewrite IH. destruct (v =? b); lia.
Qed.

Lemma occurrences_Permutation b l k :
  Permutation l k -> occurrences b l = occurrences b k.
Proof. induction 1; simpl; lia. Qed.

(** ** Local Histogrammer *)

Lemma length_count_sample h v : length (count_sample h v) = length h.
Proof.
  unfold count_sample, increment. destruct (v <? MAXVAL); [|done].
  apply length_alter.
Qed.

Lemma length_foldl_count_sample samples h :
  length (foldl count_sample h samples) = length h.
Proof.
  revert h. induction samples as [|v samples IH]; intros h; [done|].
  simpl. by rewrite IH, length_count_sample.
Qed.

Lemma length_local_histogram samples :
  length (local_histogram samples) = Z.to_nat MAXVAL.
Proof.
  unfold local_histogram.
  by rewrite length_foldl_count_sample, length_replicate.
Qed.

(** One sample moves the counter of its own bucket by one and no other. *)
Lemma lookup_count_sample h v (b : nat) c :
  uint32 v -> (b < Z.to_nat MAXVAL)%nat -> h !! b = Some (to_int c) ->
  count_sample h v !! b
  = Some (to_int (c + if v =? Z.of_nat b then 1 else 0)).
Proof.
  intros [Hv _] Hb Hh. unfold count_sample, increment.
  destruct (Z.ltb_spec v MAXVAL) as [Hlt|Hge].
  - destruct (Z.eqb_spec v (Z.of_nat b)) as [->|Hne].
    + rewrite Nat2Z.id, list_lookup_alter_eq, Hh. simpl.
      by rewrite to_int_add_l.
    + rewrite list_lookup_alter_ne by lia. rewrite Hh. do 2 f_equal. lia.
  - destruct (Z.eqb_spec v (Z.of_nat b)) as [->|Hne]; [lia|].
    rewrite Hh. do 2 f_equal. lia.
Qed.

Lemma lookup_foldl_count_sample samples : forall h (b : nat) c,
  Forall uint32 samples -> (b < Z.to_nat MAXVAL)%nat ->
  h !! b = Some (to_int c) ->
  foldl count_sample h samples !! b
  = Some (to_int (c + occurrences (Z.of_nat b) samples)).
Proof.
  induction samples as [|v samples IH]; intros h b c Hs Hb Hh.
  - simpl. rewrite Hh. do 2 f_equal. lia.
  - apply Forall_cons in Hs as [Hv Hs]. simpl.
    rewrite (IH _ b (c + if v =? Z.of_nat b then 1 else 0)); try done.
    + do 2 f_equal. lia.
    + by apply lookup_count_sample.
Qed.

(** Every counter of a local histogram is the number of occurrences of its
    index, reduced to the range of an [int]. *)
Lemma lookup_local_histogram samples (b : nat) :
  Forall uint32 samples -> (b < Z.to_nat MAXVAL)%nat ->
  local_histogram samples !! b
  = Some (to_int (occurrences (Z.of_nat b) samples)).
Proof.
  intros Hs Hb. unfold local_histogram.
  rewrite (lookup_foldl_count_sample samples _ b 0); try done.
  by rewrite lookup_replicate_2.
Qed.

Lemma lookup_local_histogram_ge samples (b : nat) :
  (Z.to_nat MAXVAL <= b)%nat -> local_histogram samples !! b = None.
Proof.
  intros Hb. apply lookup_ge_None. by rewrite length_local_histogram.
Qed.

Lemma local_histogram_ext l k :
  Forall uint32 l -> Forall uint32 k ->
  (forall b, 0 <= b < MAXVAL -> occurrences b l = occurrences b k) ->
  local_histogram l = local_histogram k.
Proof.
  intros Hl Hk Hocc. apply list_eq. intros i.
  destruct (decide (i < Z.to_nat MAXVAL)%nat) as [Hi|Hi].
  - rewrite !lookup_local_histogram by done.
    rewrite Hocc; [done|]. rewrite MAXVAL_eq in *. lia.
  - rewrite !lookup_local_histogram_ge by lia. done.
Qed.

(** ** Sums *)

Lemma sumZ_app l k : sumZ (l ++ k) = sumZ l + sumZ k.
Proof. unfold sumZ. induction l as [|x l IH]; simpl; lia. Qed.

Lemma sumZ_Permutation l k : Permutation l k -> sumZ l = sumZ k.
Proof. unfold sumZ. induction 1; simpl; lia. Qed.

Lemma sumZ_replicate n x : sumZ (replicate n x) = Z.of_nat n * x.
Proof.
  unfold sumZ. induction n as [|n IH]; [done|].
  rewrite replicate_S. simpl foldr. rewrite IH. lia.
Qed.

Lemma occurrences_concat b ls :
  occurrences b (concat ls) = sumZ (occurrences b <$> ls).
Proof.
  induction ls as [|l ls IH]; [done|].
  simpl concat. rewrite occurrences_app, IH. done.
Qed.

(** ** Global Reducer *)

(** Summing two local histograms gives the local histogram of the two slices
    put together. *)
Lemma zip_with_MPI_SUM_local_histogram l k :
  Forall uint32 l -> Forall uint32 k ->
  zip_with MPI_SUM (local_histogram l) (local_histogram k)
  = local_histogram (l ++ k).
Proof.
  intros Hl Hk. apply list_eq. intros i. rewrite lookup_zip_with.
  destruct (decide (i < Z.to_nat MAXVAL)%nat) as [Hi|Hi].
  - rewrite !lookup_local_histogram; try done; [|by apply Forall_app].
    simpl. unfold MPI_SUM.
    by rewrite to_int_add_l, to_int_add_r, occurrences_app.
  - rewrite !lookup_local_histogram_ge by lia. done.
Qed.

Lemma foldl_MPI_SUM_local_histogram ls : forall l,
  Forall uint32 l -> Forall (Forall uint32) ls ->
  foldl (zip_with MPI_SUM) (local_histogram l) (local_histogram <$> ls)
  = local_histogram (l ++ concat ls).
Proof.
  induction ls as [|k ls IH]; intros l Hl Hls.
  - simpl. by rewrite app_nil_r.
  - apply Forall_cons in Hls as [Hk Hls]. simpl.
    rewrite zip_with_MPI_SUM_local_histogram by done.
    rewrite IH; [by rewrite <- app_assoc | by apply Forall_app | done].
Qed.

(** The reduction of the local histograms of a non-empty family of slices is
    the local histogram of their concatenation. *)
Lemma MPI_Reduce_local_histogram ls :
  ls <> [] -> Forall (Forall uint32) ls ->
  MPI_Reduce (local_histogram <$> ls) = local_histogram (concat ls).
Proof.
  destruct ls as [|l ls]; [done|]. intros _ Hls.
  apply Forall_cons in Hls as [Hl Hls].
  by apply foldl_MPI_SUM_local_histogram.
Qed.

(** ** Distributor *)

Lemma length_MPI_Scatter sendbuf count size :
  length (MPI_Scatter sendbuf count size) = Z.to_nat size.
Proof. unfold MPI_Scatter. by rewrite length_fmap, length_seq. Qed.

Lemma lookup_MPI_Scatter sendbuf count size (r : nat) :
  (r < Z.to_nat size)%nat ->
  MPI_Scatter sendbuf count size !! r
  = Some (take (Z.to_nat count) (drop (r * Z.to_nat count) sendbuf)).
Proof.
  intros Hr. unfold MPI_Scatter.
  by rewrite list_lookup_fmap, lookup_seq_lt.
Qed.

Lemma concat_blocks (sendbuf : list Z) (n : nat) : forall k a : nat,
  concat ((fun r : nat => take n (drop (r * n) sendbuf)) <$> seq a k)
  = take (k * n) (drop (a * n) sendbuf).
Proof.
  induction k as [|k IH]; intros a; [done|].
  simpl seq. rewrite fmap_cons. simpl concat. rewrite IH.
  replace (S a * n)%nat with (a * n + n)%nat by lia.
  rewrite <- drop_drop, take_take_drop. f_equal.
Qed.

(** The slices, put end to end in rank order, are the front of the send
    buffer. *)
Lemma concat_MPI_Scatter sendbuf count size :
  concat (MPI_Scatter sendbuf count size)
  = take (Z.to_nat size * Z.to_nat count) sendbuf.
Proof. unfold MPI_Scatter. by rewrite concat_blocks. Qed.

Lemma Forall_MPI_Scatter (P : Z -> Prop) sendbuf count size :
  Forall P sendbuf -> Forall (Forall P) (MPI_Scatter sendbuf count size).
Proof.
  intros H. unfold MPI_Scatter. apply Forall_fmap, Forall_forall.
  intros r _. simpl. by apply Forall_take, Forall_drop.
Qed.

Lemma MPI_Scatter_nonempty sendbuf count size :
  0 < size -> MPI_Scatter sendbuf count size <> [].
Proof.
  intros Hs Hnil. apply (f_equal length) in Hnil.
  rewrite length_MPI_Scatter in Hnil. simpl in Hnil. lia.
Qed.

Lemma local_n_of_div N size :
  0 <= N <= UINT32_MAX -> 0 < size <= INT_MAX -> local_n_of N size = N / size.
Proof.
  unfold local_n_of, to_uint32, UINT32_MAX, INT_MAX. intros HN Hs.
  rewrite (Z.mod_small size) by lia.
  apply Z.mod_small. split; [apply Z.div_pos; lia|].
  apply Z.div_lt_upper_bound; nia.
Qed.

Lemma count_per_rank_le N size : 0 <= N -> 0 < size -> N / size <= N.
Proof. intros HN Hs. apply Z.div_le_upper_bound; nia. Qed.

(** A [local_n] that fits an [int] reaches [MPI_Scatter] unchanged; a larger
    one arrives negative. *)
Lemma local_n_of_range N size : 0 <= local_n_of N size <= UINT32_MAX.
Proof.
  unfold local_n_of, to_uint32, UINT32_MAX.
  pose proof (Z.mod_pos_bound (N / (size mod 2 ^ 32)) (2 ^ 32)). lia.
Qed.

Lemma to_int_wraps x : INT_MAX < x <= UINT32_MAX -> to_int x = x - 2 ^ 32.
Proof.
  unfold to_int, INT_MAX, UINT32_MAX. intros Hx.
  replace (x + 2 ^ 31) with (x - 2 ^ 31 + 1 * 2 ^ 32) by lia.
  rewrite Z.mod_add by lia. rewrite Z.mod_small by lia. lia.
Qed.

Lemma to_int_local_n N size :
  local_n_of N size <= INT_MAX ->
  to_int (local_n_of N size) = local_n_of N size.
Proof.
  intros H. apply to_int_id. pose proof (local_n_of_range N size). lia.
Qed.

(** A receive buffer of [MPI_Scatter] holds no more elements than an [int]
    counts. *)
Lemma length_received sendbuf x size s :
  s ∈ MPI_Scatter sendbuf (to_int x) size -> Z.of_nat (length s) <= INT_MAX.
Proof.
  intros Hs. unfold MPI_Scatter in Hs.
  apply list_elem_of_fmap in Hs as (r & -> & _).
  rewrite length_take. pose proof (to_int_range x) as Hx.
  unfold INT_MAX in *. lia.
Qed.

(** No element is moved for a count that is not positive. *)
Lemma MPI_Scatter_nothing sendbuf count size :
  count <= 0 -> MPI_Scatter sendbuf count size = replicate (Z.to_nat size) [].
Proof.
  intros Hc. apply list_eq. intros r. unfold MPI_Scatter.
  replace (Z.to_nat count) with 0%nat by lia.
  rewrite list_lookup_fmap.
  destruct (decide (r < Z.to_nat size)%nat) as [Hr|Hr].
  - rewrite lookup_seq_lt, lookup_replicate_2 by done. done.
  - rewrite lookup_seq_ge by lia. symmetry.
    apply lookup_replicate_None. lia.
Qed.

(** ** The reduction does not depend on the order of arrival *)

Lemma fmap_lookup_total_seq {A} `{!Inhabited A} (l : list A) :
  (fun r => l !!! r) <$> seq 0 (length l) = l.
Proof.
  apply list_eq. intros i. rewrite list_lookup_fmap.
  destruct (decide (i < length l)%nat) as [Hi|Hi].
  - rewrite lookup_seq_lt by done. simpl.
    by rewrite list_lookup_lookup_total_lt.
  - rewrite lookup_seq_ge by lia. symmetry. apply lookup_ge_None. lia.
Qed.

Lemma arrival_local_histograms arrival (slices : list (list Z)) :
  Permutation arrival (seq 0 (length slices)) ->
  (fun r => (local_histogram <$> slices) !!! r) <$> arrival
  = local_histogram <$> ((fun r => slices !!! r) <$> arrival).
Proof.
  intros Hp. rewrite <- list_fmap_compose. apply list_fmap_ext.
  intros i r Hr. simpl.
  assert (r < length slices)%nat as Hlt.
  { apply list_elem_of_lookup_2 in Hr. rewrite Hp in Hr.
    apply elem_of_seq in Hr. lia. }
  by apply list_lookup_total_fmap.
Qed.

Lemma global_histogram_by_direct arrival N data size :
  Forall uint32 data -> 0 < size -> Permutation arrival (rank_order size) ->
  global_histogram_by arrival N data size
  = local_histogram
      (take (Z.to_nat size * Z.to_nat (to_int (local_n_of N size))) data).
Proof.
  intros Hdata Hsize Hp. unfold global_histogram_by, rank_order in *.
  set (slices := MPI_Scatter data (to_int (local_n_of N size)) size).
  assert (length slices = Z.to_nat size) as Hlen
    by apply length_MPI_Scatter.
  rewrite <- Hlen in Hp.
  rewrite arrival_local_histograms by done.
  set (slices' := (fun r => slices !!! r) <$> arrival).
  assert (Permutation slices' slices) as Hp'.
  { unfold slices'. rewrite Hp. by rewrite fmap_lookup_total_seq. }
  assert (Forall (Forall uint32) slices) as Hall
    by by apply Forall_MPI_Scatter.
  rewrite MPI_Reduce_local_histogram.
  - rewrite <- concat_MPI_Scatter. fold slices.
    apply local_histogram_ext.
    + apply Forall_concat. by rewrite Hp'.
    + by apply Forall_concat.
    + intros b _. rewrite !occurrences_concat.
      apply sumZ_Permutation. by rewrite Hp'.
  - intros Hnil. rewrite Hnil in Hp'. apply Permutation_nil in Hp'.
    by apply (MPI_Scatter_nonempty data (to_int (local_n_of N size)) size).
  - by rewrite Hp'.
Qed.

(** ** Sparse JSON Emitter *)

Lemma string_app_cons a s t : String a s +:+ t = String a (s +:+ t).
Proof. reflexivity. Qed.

Lemma string_app_nil_r s : s +:+ EmptyString = s.
Proof.
  induction s as [|a s IH]; [done|]. by rewrite string_app_cons, IH.
Qed.

Lemma string_app_assoc s t u : (s +:+ t) +:+ u = s +:+ t +:+ u.
Proof.
  induction s as [|a s IH]; [done|]. by rewrite !string_app_cons, IH.
Qed.

Lemma concat_snoc sep (xs : list string) y :
  String.concat sep (xs ++ [y])
  = match xs with
    | [] => y
    | _ => String.concat sep xs +:+ sep +:+ y
    end.
Proof.
  induction xs as [|x xs IH]; [done|].
  destruct xs as [|x' xs]; [done|].
  change (String.concat sep ((x :: x' :: xs) ++ [y]))
    with (x +:+ sep +:+ String.concat sep ((x' :: xs) ++ [y])).
  rewrite IH.
  change (String.concat sep (x :: x' :: xs))
    with (x +:+ sep +:+ String.concat sep (x' :: xs)).
  by rewrite !string_app_assoc.
Qed.

Lemma emit_bucket_positive h es i :
  0 < h !!! Z.to_nat i ->
  emit_bucket h (emitter_after es) i
  = emitter_after (es ++ [(i, h !!! Z.to_nat i)]).
Proof.
  intros Hc. unfold emit_bucket, emitter_after.
  destruct (Z.ltb_spec 0 (h !!! Z.to_nat i)) as [_|]; [|lia].
  cbv [fout first]. f_equal.
  - rewrite fmap_app.
    change (json_entry <$> [(i, h !!! Z.to_nat i)])
      with [dquote +:+ pretty i +:+ dquote +:+ ":" +:+ pretty (h !!! Z.to_nat i)].
    rewrite concat_snoc.
    destruct es as [|e es].
    + rewrite bool_decide_true by done. done.
    + rewrite bool_decide_false by done. rewrite fmap_cons.
      by rewrite !string_app_assoc.
  - symmetry. apply bool_decide_false. by destruct es.
Qed.

Lemma emit_bucket_skip h st i :
  h !!! Z.to_nat i <= 0 -> emit_bucket h st i = st.
Proof.
  intros Hc. unfold emit_bucket.
  by destruct (Z.ltb_spec 0 (h !!! Z.to_nat i)) as [|_]; [lia|].
Qed.

Lemma foldl_emit_bucket h indices : forall es,
  foldl (emit_bucket h) (emitter_after es) indices
  = emitter_after (es ++ filter (fun e => 0 < e.2) (buckets_of h indices)).
Proof.
  induction indices as [|i indices IH]; intros es.
  - simpl. by rewrite app_nil_r.
  - simpl foldl. unfold buckets_of. rewrite fmap_cons. fold (buckets_of h indices).
    destruct (decide (0 < h !!! Z.to_nat i)) as [Hpos|Hneg].
    + rewrite emit_bucket_positive by done. rewrite IH.
      rewrite filter_cons_True by done. by rewrite <- app_assoc.
    + rewrite emit_bucket_skip by lia. rewrite IH.
      by rewrite filter_cons_False by done.
Qed.

Lemma fout_emitter_after es :
  fout (emitter_after es) +:+ "}" +:+ newline = json_object es +:+ newline.
Proof.
  unfold emitter_after, json_object. cbv [fout].
  by rewrite !string_app_assoc.
Qed.

(** The text written is the object of the buckets with a positive counter,
    in ascending order, and a newline. *)
Lemma Sparse_JSON_Emitter_positive_buckets h :
  Sparse_JSON_Emitter h = json_object (positive_buckets h) +:+ newline.
Proof.
  unfold Sparse_JSON_Emitter.
  change (mk_emitter "{" true) with (emitter_after []).
  rewrite foldl_emit_bucket, app_nil_l.
  apply fout_emitter_after.
Qed.

(** ** Binary Reader *)

Lemma byte_val_range b : 0 <= byte_val b < 2 ^ 8.
Proof.
  unfold byte_val. pose proof (Byte.to_N_bounded b).
  change (2 ^ 8) with 256. lia.
Qed.

Lemma word_of_bytes_range native b0 b1 b2 b3 :
  uint32 (word_of_bytes native [b0; b1; b2; b3]).
Proof.
  unfold uint32, UINT32_MAX, word_of_bytes.
  set (bs := match native with
             | LittleEndian => [b0; b1; b2; b3]
             | BigEndian => reverse [b0; b1; b2; b3]
             end).
  assert (length bs = 4%nat) as Hlen by by destruct native.
  pose proof (little_endian_to_Z_bound 8 (byte_val <$> bs)) as Hb.
  rewrite length_fmap, Hlen in Hb.
  change (2 ^ (Z.of_nat 4 * 8)) with (2 ^ 32) in Hb.
  cut (0 <= little_endian_to_Z 8 (byte_val <$> bs) < 2 ^ 32); [lia|].
  apply Hb; [lia|]. apply Forall_fmap, Forall_forall.
  intros b _. apply byte_val_range.
Qed.

Lemma word_of_zero_bytes native :
  word_of_bytes native [Byte.x00; Byte.x00; Byte.x00; Byte.x00] = 0.
Proof. by destruct native. Qed.

Lemma load_words_cons native b0 b1 b2 b3 rest :
  load_words native (b0 :: b1 :: b2 :: b3 :: rest)
  = word_of_bytes native [b0; b1; b2; b3] :: load_words native rest.
Proof. reflexivity. Qed.

Lemma four_bytes (mem : list byte) (n : nat) :
  length mem = (4 * S n)%nat ->
  exists b0 b1 b2 b3 rest,
    mem = b0 :: b1 :: b2 :: b3 :: rest /\ length rest = (4 * n)%nat.
Proof.
  intros Hlen.
  destruct mem as [|b0 [|b1 [|b2 [|b3 rest]]]]; simpl in Hlen; try lia.
  exists b0, b1, b2, b3, rest. split; [done|lia].
Qed.

Lemma length_load_words native : forall (n : nat) mem,
  length mem = (4 * n)%nat -> length (load_words native mem) = n.
Proof.
  induction n as [|n IH]; intros mem Hlen.
  - by destruct mem.
  - destruct (four_bytes mem n Hlen) as (b0 & b1 & b2 & b3 & rest & -> & Hrest).
    rewrite load_words_cons. simpl length. by rewrite IH.
Qed.

(** Element [i] of the vector is the word held by bytes [4i .. 4i+3]. *)
Lemma lookup_load_words native : forall (i n : nat) mem,
  length mem = (4 * n)%nat -> (i < n)%nat ->
  load_words native mem !! i
  = Some (word_of_bytes native (take 4 (drop (4 * i) mem))).
Proof.
  induction i as [|i IH]; intros n mem Hlen Hi.
  - destruct n as [|n]; [lia|].
    by destruct (four_bytes mem n Hlen) as (b0 & b1 & b2 & b3 & rest & -> & _).
  - destruct n as [|n]; [lia|].
    destruct (four_bytes mem n Hlen) as (b0 & b1 & b2 & b3 & rest & -> & Hrest).
    rewrite load_words_cons.
    replace (4 * S i)%nat with (S (S (S (S (4 * i))))) by lia.
    simpl. apply (IH n); [done|lia].
Qed.

Lemma Forall_uint32_load_words native : forall (n : nat) mem,
  length mem = (4 * n)%nat -> Forall uint32 (load_words native mem).
Proof.
  induction n as [|n IH]; intros mem Hlen.
  - destruct mem; [constructor|done].
  - destruct (four_bytes mem n Hlen) as (b0 & b1 & b2 & b3 & rest & -> & Hrest).
    rewrite load_words_cons. constructor; [apply word_of_bytes_range|by apply IH].
Qed.

Lemma load_words_zero native (n : nat) :
  load_words native (replicate (4 * n) Byte.x00) = replicate n 0.
Proof.
  induction n as [|n IH]; [done|].
  replace (4 * S n)%nat with (S (S (S (S (4 * n))))) by lia.
  rewrite !replicate_S, load_words_cons, word_of_zero_bytes. by rewrite IH.
Qed.

Lemma count_of_size_range len : 0 <= count_of_size len <= UINT32_MAX.
Proof.
  unfold count_of_size, to_uint32, UINT32_MAX.
  pose proof (Z.mod_pos_bound (to_uint64 len / sizeof_uint32) (2 ^ 32)). lia.
Qed.

Lemma count_of_size_fits len :
  0 <= len -> count_of_size len * sizeof_uint32 <= len.
Proof.
  intros Hlen. unfold count_of_size, to_uint32, to_uint64, sizeof_uint32.
  assert (0 <= len mod 2 ^ 64 <= len) as H64.
  { split; [apply Z.mod_pos_bound; lia|apply Z.mod_le; lia]. }
  assert (0 <= len mod 2 ^ 64 / 4) as Hq by (apply Z.div_pos; lia).
  assert ((len mod 2 ^ 64 / 4) mod 2 ^ 32 <= len mod 2 ^ 64 / 4) as Hm
    by (apply Z.mod_le; lia).
  pose proof (Z.mul_div_le (len mod 2 ^ 64) 4). lia.
Qed.

(** A file that opens: the count comes from its size and the vector holds
    the words of its first [4 * total_count] bytes. *)
Lemma Binary_Reader_readable native bytes :
  Binary_Reader native (Some bytes)
  = (count_of_size (Z.of_nat (length bytes)),
     load_words native
       (take (Z.to_nat (count_of_size (Z.of_nat (length bytes)) * sizeof_uint32))
             bytes)).
Proof.
  set (N := count_of_size (Z.of_nat (length bytes))).
  change (Binary_Reader native (Some bytes))
    with (let got := take (Z.to_nat (N * sizeof_uint32)) (drop 0 bytes) in
          (N, load_words native (got ++ drop (length got) (resized_storage N)))).
  cbv zeta. rewrite drop_0.
  pose proof (count_of_size_fits (Z.of_nat (length bytes))) as Hfit.
  pose proof (count_of_size_range (Z.of_nat (length bytes))) as HN.
  fold N in Hfit, HN.
  rewrite drop_ge, app_nil_r; [done|].
  unfold resized_storage. rewrite length_replicate, length_take. lia.
Qed.

Lemma load_words_resized native N :
  0 <= N -> load_words native (resized_storage N) = replicate (Z.to_nat N) 0.
Proof.
  intros HN. unfold resized_storage, sizeof_uint32.
  rewrite Z2Nat.inj_mul by lia.
  rewrite Nat.mul_comm. change (Z.to_nat 4) with 4%nat.
  apply load_words_zero.
Qed.

Lemma UINT32_MAX_nonneg : 0 <= UINT32_MAX.
Proof. by vm_compute. Qed.

(** A file that does not open: the failed [tellg] makes the count
    [UINT32_MAX] and the vector stays as [resize] left it. *)
Lemma Binary_Reader_unopenable native :
  Binary_Reader native None
  = (UINT32_MAX, replicate (Z.to_nat UINT32_MAX) 0).
Proof.
  unfold Binary_Reader.
  cbv beta iota zeta delta
    [Ifstream.open_ate Ifstream.tellg Ifstream.seekg_beg Ifstream.read
     Ifstream.failbit].
  change (to_uint32 (to_uint64 (-1) / sizeof_uint32)) with UINT32_MAX.
  rewrite load_words_resized by apply UINT32_MAX_nonneg. reflexivity.
Qed.

(** ** Exact counters *)

Lemma lookup_total_local_histogram samples (b : nat) :
  Forall uint32 samples -> (b < Z.to_nat MAXVAL)%nat ->
  local_histogram samples !!! b = to_int (occurrences (Z.of_nat b) samples).
Proof.
  intros Hs Hb. apply list_lookup_total_correct.
  by apply lookup_local_histogram.
Qed.

Lemma to_int_occurrences b samples :
  occurrences b samples <= INT_MAX ->
  to_int (occurrences b samples) = occurrences b samples.
Proof.
  intros Hle. apply to_int_id. pose proof (occurrences_nonneg b samples). lia.
Qed.

Lemma no_overflow_short samples :
  Z.of_nat (length samples) <= INT_MAX -> no_overflow samples.
Proof.
  intros Hlen b _. pose proof (occurrences_le_length b samples). lia.
Qed.



Lemma divide_exact (n W : Z) : 0 < W -> (W | n) -> n = W * (n / W).
Proof.
  intros HW [q ->]. rewrite Z.div_mul by lia. lia.
Qed.

Lemma divide_blocks (n W : Z) :
  0 <= n -> 0 < W -> (W | n) ->
  (Z.to_nat W * Z.to_nat (n / W))%nat = Z.to_nat n.
Proof.
  intros Hn HW Hdiv.
  rewrite <- Z2Nat.inj_mul by (try apply Z.div_pos; lia).
  f_equal. symmetry. by apply divide_exact.
Qed.




(** ** Samples that are all alike *)

Lemma lookup_local_histogram_replicate (n : nat) v (b : nat) :
  uint32 v -> (b < Z.to_nat MAXVAL)%nat ->
  local_histogram (replicate n v) !! b
  = Some (to_int (if v =? Z.of_nat b then Z.of_nat n else 0)).
Proof.
  intros Hv Hb. rewrite lookup_local_histogram; [|by apply Forall_replicate|done].
  by rewrite occurrences_replicate.
Qed.

Lemma uint32_0 : uint32 0.
Proof. by vm_compute. Qed.

Lemma filter_none {A} (P : A -> Prop) `{!forall x, Decision (P x)} (l : list A) :
  Forall (fun x => ~ P x) l -> filter P l = [].
Proof.
  induction 1 as [|x l Hx _ IH]; [done|].
  by rewrite filter_cons_False.
Qed.

Lemma positive_buckets_none h :
  (forall b : nat, (b < Z.to_nat MAXVAL)%nat -> h !!! b <= 0) ->
  positive_buckets h = [].
Proof.
  intros Hh. unfold positive_buckets. apply filter_none.
  unfold buckets, buckets_of. apply Forall_fmap, Forall_seqZ.
  intros i Hi. simpl. specialize (Hh (Z.to_nat i)). lia.
Qed.

(** A slice of [m] zeros with [2^31 <= m < 2^32] leaves a negative counter
    in bucket 0, so nothing is left to print. *)
Lemma positive_buckets_overflowed (m : nat) :
  2 ^ 31 <= Z.of_nat m < 2 ^ 32 ->
  positive_buckets (local_histogram (replicate m 0)) = [].
Proof.
  intros Hm. apply positive_buckets_none. intros b Hb.
  erewrite list_lookup_total_correct
    by (apply lookup_local_histogram_replicate; [apply uint32_0|done]).
  destruct (Z.eqb_spec 0 (Z.of_nat b)) as [_|_].
  - unfold to_int.
    replace (Z.of_nat m + 2 ^ 31) with (Z.of_nat m - 2 ^ 31 + 1 * 2 ^ 32) by lia.
    rewrite Z_mod_plus_full, Z.mod_small by lia. lia.
  - by vm_compute.
Qed.

Lemma json_object_nil : json_object [] +:+ newline = "{}" +:+ newline.
Proof. reflexivity. Qed.

(** ** Local Histogrammer: the contract *)

Lemma count_sample_discard h v : MAXVAL <= v -> count_sample h v = h.
Proof.
  intros Hv. unfold count_sample.
  by destruct (Z.ltb_spec v MAXVAL) as [|_]; [lia|].
Qed.

(** C3.  For every work slice, that is for every receive buffer the
    scatter fills on some rank: the local histogram has exactly 1024
    counters, the counter at every index [b < 1024] is the number of samples
    of the slice equal to [b] (so a sample 1023 is counted in bucket 1023),
    and a sample [v >= 1024], 1024 included, leaves every counter as it
    was.  No counter overflows, a slice holding at most [INT_MAX] samples. *)
Theorem local_histogram_counts (data : list Z) (local_n size : Z)
    (slice : list Z) :
  Forall uint32 data ->
  slice ∈ MPI_Scatter data (to_int local_n) size ->
  length (local_histogram slice) = 1024%nat /\
  (forall b, 0 <= b < 1024 ->
     local_histogram slice !! Z.to_nat b = Some (occurrences b slice)) /\
  (forall h v, 1024 <= v -> count_sample h v = h) /\
  (forall front back v, Forall uint32 front -> 1024 <= v ->
     local_histogram (front ++ v :: back) = local_histogram (front ++ back)).
Proof.
  intros Hdata Hin.
  assert (Forall uint32 slice) as Hs.
  { pose proof (Forall_MPI_Scatter uint32 data (to_int local_n) size Hdata)
      as Hall.
    rewrite Forall_forall in Hall. by apply Hall. }
  assert (no_overflow slice) as Hno.
  { apply no_overflow_short. by eapply length_received. }
  split; [apply length_local_histogram|].
  split; [|split].
  - intros b Hb.
    rewrite lookup_local_histogram by (done || (rewrite MAXVAL_eq; lia)).
    rewrite Z2Nat.id by lia. rewrite to_int_occurrences; [done|].
    apply Hno. rewrite MAXVAL_eq. lia.
  - intros h v Hv. apply count_sample_discard. by rewrite MAXVAL_eq.
  - intros front back v Hfront Hv. unfold local_histogram.
    rewrite !foldl_app. simpl foldl.
    rewrite count_sample_discard; [done|by rewrite MAXVAL_eq].
Qed.

Lemma local_histogram_counts_witness :
  let data := [1023; 1024; 1023; 0; 2000; 7] in
  let slice := [1023; 1024; 1023] in
  (Forall uint32 data /\ slice ∈ MPI_Scatter data (to_int 3) 2) /\
  length (local_histogram slice) = 1024%nat /\
  (forall b, 0 <= b < 1024 ->
     local_histogram slice !! Z.to_nat b = Some (occurrences b slice)) /\
  (forall h v, 1024 <= v -> count_sample h v = h) /\
  (forall front back v, Forall uint32 front -> 1024 <= v ->
     local_histogram (front ++ v :: back) = local_histogram (front ++ back)).
Proof.
  intros data slice.
  assert (Forall uint32 data) as Hdata
    by (repeat constructor; vm_compute; congruence).
  assert (slice ∈ MPI_Scatter data (to_int 3) 2) as Hin
    by (vm_compute; left).
  split; [exact (conj Hdata Hin)|].
  exact (local_histogram_counts data 3 2 slice Hdata Hin).
Defined.

(** The boundary values of the scenario list, run. *)
Example local_histogram_boundary :
  local_histogram [1023; 1024] !! 1023%nat = Some 1 /\
  sumZ (local_histogram [1023; 1024]) = 1 /\
  local_histogram [1024; 2000; 4294967295] = replicate 1024 0.
Proof. by vm_compute. Qed.

(** ** What the emitted counts add up to *)

Lemma sumZ_fmap_add {A} (f g : A -> Z) (l : list A) :
  sumZ ((fun x => f x + g x) <$> l) = sumZ (f <$> l) + sumZ (g <$> l).
Proof.
  unfold sumZ. induction l as [|x l IH]; [done|].
  rewrite !fmap_cons. simpl foldr. lia.
Qed.

(** Among consecutive indices at most one equals [v]. *)
Lemma sum_indicator_seqZ v m (k : nat) :
  sumZ ((fun i => if v =? i then 1 else 0) <$> seqZ m (Z.of_nat k))
  = if (m <=? v) && (v <? m + Z.of_nat k) then 1 else 0.
Proof.
  induction k as [|k IH].
  - simpl. case_Z_tests; simpl; lia.
  - rewrite seqZ_S, fmap_app, sumZ_app, IH. unfold sumZ. simpl foldr.
    case_Z_tests; simpl; lia.
Qed.

Lemma sum_occurrences_buckets samples :
  Forall uint32 samples ->
  sumZ ((fun i => occurrences i samples) <$> seqZ 0 MAXVAL)
  = in_range_count samples.
Proof.
  induction 1 as [|v samples [Hv _] _ IH].
  - simpl occurrences. generalize (seqZ 0 MAXVAL). intros l.
    induction l as [|i l IHl]; [done|].
    rewrite fmap_cons. unfold sumZ in *. simpl foldr. lia.
  - simpl occurrences. simpl in_range_count.
    rewrite (sumZ_fmap_add (fun i => if v =? i then 1 else 0)), IH.
    f_equal. change (seqZ 0 MAXVAL) with (seqZ 0 (Z.of_nat 1024)).
    rewrite sum_indicator_seqZ, MAXVAL_eq.
    case_Z_tests; simpl; lia.
Qed.

Lemma sum_positive_filter (es : list (Z * Z)) :
  Forall (fun e => 0 <= e.2) es ->
  sumZ ((filter (fun e => 0 < e.2) es).*2) = sumZ (es.*2).
Proof.
  induction 1 as [|e es He _ IH]; [done|].
  destruct (decide (0 < e.2)) as [Hpos|Hzero].
  - rewrite filter_cons_True by done. rewrite !fmap_cons.
    unfold sumZ in *. simpl foldr. lia.
  - rewrite filter_cons_False by done. rewrite fmap_cons.
    unfold sumZ in *. simpl foldr. lia.
Qed.

Lemma snd_buckets_local_histogram samples :
  Forall uint32 samples -> no_overflow samples ->
  (buckets (local_histogram samples)).*2
  = (fun i => occurrences i samples) <$> seqZ 0 MAXVAL.
Proof.
  intros Hs Hno. unfold buckets, buckets_of.
  rewrite <- list_fmap_compose. apply list_fmap_ext.
  intros k i Hi. apply lookup_seqZ in Hi as [-> Hk]. simpl.
  rewrite lookup_total_local_histogram by (done || lia).
  rewrite Z2Nat.id by lia. apply to_int_occurrences, Hno. lia.
Qed.

Lemma sum_positive_buckets_local_histogram samples :
  Forall uint32 samples -> no_overflow samples ->
  sumZ ((positive_buckets (local_histogram samples)).*2)
  = in_range_count samples.
Proof.
  intros Hs Hno. unfold positive_buckets.
  rewrite sum_positive_filter.
  - rewrite snd_buckets_local_histogram by done.
    by apply sum_occurrences_buckets.
  - apply Forall_forall. intros e He.
    apply (list_elem_of_fmap_2 snd) in He.
    rewrite snd_buckets_local_histogram in He by done.
    apply list_elem_of_fmap in He as (i & -> & _).
    apply occurrences_nonneg.
Qed.

Lemma in_range_count_replicate_0 (n : nat) :
  in_range_count (replicate n 0) = Z.of_nat n.
Proof.
  induction n as [|n IH]; [done|].
  rewrite replicate_S. simpl in_range_count. rewrite IH.
  change (0 <? MAXVAL) with true. lia.
Qed.

(** When every rank contributes, the global histogram is the histogram of
    the elements that were distributed. *)
Lemma global_histogram_direct data size :
  Forall uint32 data -> Z.of_nat (length data) <= UINT32_MAX ->
  0 < size <= INT_MAX -> Z.of_nat (length data) / size <= INT_MAX ->
  global_histogram data size
  = local_histogram
      (take (Z.to_nat (size * (Z.of_nat (length data) / size))) data).
Proof.
  intros Hdata Hlen Hsize Hcount. unfold global_histogram.
  rewrite global_histogram_by_direct by (done || lia).
  rewrite to_int_local_n by (rewrite local_n_of_div; lia).
  rewrite local_n_of_div by lia.
  rewrite <- Z2Nat.inj_mul; [done|lia|apply Z.div_pos; lia].
Qed.

(** Two ranks and a stream of zeros long enough to give each of them
    [INT_MAX] samples: the sum of the two counters of bucket 0 leaves the
    range of an [int]. *)
Lemma global_histogram_by_zeros N (n m : nat) :
  local_n_of N 2 = 2 ^ 31 - 1 -> Z.of_nat m = 2 ^ 32 - 2 -> (m <= n)%nat ->
  global_histogram_by (rank_order 2) N (replicate n 0) 2
  = local_histogram (replicate m 0).
Proof.
  intros Hloc Hm Hmn.
  rewrite global_histogram_by_direct;
    [|apply Forall_replicate, uint32_0|done|done].
  rewrite Hloc, to_int_id by (unfold INT_MAX; lia).
  rewrite take_replicate.
  replace (Nat.min (Z.to_nat 2 * Z.to_nat (2 ^ 31 - 1)) n) with m by lia.
  done.
Qed.

Lemma Sparse_JSON_Emitter_overflowed (m : nat) :
  Z.of_nat m = 2 ^ 32 - 2 ->
  Sparse_JSON_Emitter (local_histogram (replicate m 0)) = "{}" +:+ newline.
Proof.
  intros Hm. rewrite Sparse_JSON_Emitter_positive_buckets.
  rewrite positive_buckets_overflowed by lia. apply json_object_nil.
Qed.

Lemma stream_size_nonneg : 0 <= 2 ^ 32 - 2.
Proof. lia. Qed.

Lemma overflowing_stream_length :
  Z.of_nat (length overflowing_stream) = 2 ^ 32 - 2.
Proof.
  unfold overflowing_stream. rewrite length_replicate.
  apply Z2Nat.id, stream_size_nonneg.
Qed.

Lemma global_histogram_overflowing_stream :
  global_histogram overflowing_stream 2 = local_histogram overflowing_stream.
Proof.
  unfold global_histogram. rewrite overflowing_stream_length.
  unfold overflowing_stream. apply global_histogram_by_zeros.
  - reflexivity.
  - apply Z2Nat.id, stream_size_nonneg.
  - apply Nat.le_refl.
Qed.

(** C2, as stated, fails.  On two ranks the stream [overflowing_stream],
    whose [2^32 - 2] elements are all below 1024, gives each rank [INT_MAX]
    zeros, a count [MPI_Scatter] accepts; the reduced counter of bucket 0 is
    negative, no bucket is emitted and the emitted counts add up to 0. *)
Lemma emitted_counts_sum_counterexample :
  Forall uint32 overflowing_stream /\
  Z.of_nat (length overflowing_stream) <= UINT32_MAX /\
  (2 | Z.of_nat (length overflowing_stream)) /\
  Z.of_nat (length overflowing_stream) / 2 <= INT_MAX /\
  in_range_count overflowing_stream = 2 ^ 32 - 2 /\
  positive_buckets (global_histogram overflowing_stream 2) = [] /\
  Sparse_JSON_Emitter (global_histogram overflowing_stream 2)
    = "{}" +:+ newline.
Proof.
  rewrite global_histogram_overflowing_stream, overflowing_stream_length.
  split; [apply Forall_replicate, uint32_0|].
  split; [unfold UINT32_MAX; lia|].
  split; [exists (2 ^ 31 - 1); reflexivity|].
  split; [by vm_compute|].
  unfold overflowing_stream.
  split.
  { rewrite in_range_count_replicate_0. apply Z2Nat.id, stream_size_nonneg. }
  split.
  - apply positive_buckets_overflowed.
    rewrite Z2Nat.id by apply stream_size_nonneg. lia.
  - apply Sparse_JSON_Emitter_overflowed, Z2Nat.id, stream_size_nonneg.
Qed.

(** C2, amended: for every sequence [S] of unsigned 32-bit integers and
    every worker count [W] that divides its length, when no 32-bit quantity
    of the job overflows -- the length of [S] fits the [uint32_t] element
    count, the count per rank [|S| / W] fits the [int] that [MPI_Scatter]
    takes, and no value below 1024 occurs more than [INT_MAX] times in [S]
    -- the counts of the emitted global histogram add up to the number of
    elements of [S] below 1024; the elements [>= 1024] add nothing. *)
Theorem emitted_counts_sum (S : list Z) (W : Z) :
  Forall uint32 S -> 0 < W <= INT_MAX -> (W | Z.of_nat (length S)) ->
  Z.of_nat (length S) <= UINT32_MAX ->
  Z.of_nat (length S) / W <= INT_MAX ->
  no_overflow S ->
  let global_hist := global_histogram S W in
  Sparse_JSON_Emitter global_hist
    = json_object (positive_buckets global_hist) +:+ newline /\
  sumZ ((positive_buckets global_hist).*2) = in_range_count S.
Proof.
  intros HS HW Hdiv Hlen Hcount Hno global_hist.
  split; [apply Sparse_JSON_Emitter_positive_buckets|].
  unfold global_hist. rewrite global_histogram_direct by done.
  rewrite <- divide_exact by (done || lia).
  rewrite Nat2Z.id, take_ge by done.
  by apply sum_positive_buckets_local_histogram.
Qed.

Lemma emitted_counts_sum_witness :
  let S := [0; 1; 1; 2; 1023; 1024; 2000; 7] in
  let W := 4 in
  (Forall uint32 S /\ 0 < W <= INT_MAX /\ (W | Z.of_nat (length S)) /\
   Z.of_nat (length S) <= UINT32_MAX /\
   Z.of_nat (length S) / W <= INT_MAX /\ no_overflow S) /\
  let global_hist := global_histogram S W in
  Sparse_JSON_Emitter global_hist
    = json_object (positive_buckets global_hist) +:+ newline /\
  sumZ ((positive_buckets global_hist).*2) = in_range_count S.
Proof.
  intros S W.
  assert (Forall uint32 S) as HS
    by (repeat constructor; vm_compute; congruence).
  assert (Z.of_nat (length S) <= UINT32_MAX) as Hlen
    by (vm_compute; congruence).
  assert (0 < W <= INT_MAX) as HW
    by (split; vm_compute; congruence).
  assert (W | Z.of_nat (length S)) as Hdiv by (exists 2; reflexivity).
  assert (Z.of_nat (length S) / W <= INT_MAX) as Hcount
    by (vm_compute; congruence).
  assert (no_overflow S) as Hno
    by (apply no_overflow_short; vm_compute; congruence).
  split; [exact (conj HS (conj HW (conj Hdiv (conj Hlen (conj Hcount Hno)))))|].
  exact (emitted_counts_sum S W HS HW Hdiv Hlen Hcount Hno).
Defined.

(** ** Distributor: the contract *)

(** C5, as stated, fails.  A file of 8 GiB on a single rank: [N = 2^31]
    and [local_n = 2^31], which the call of [MPI_Scatter] converts to the
    [int] [-2^31].  No slice of [local_n] elements is handed out. *)
Lemma distributor_slices_counterexample :
  Forall uint32 eight_GiB_stream /\
  Z.of_nat (length eight_GiB_stream) = 2 ^ 31 /\
  2 ^ 31 <= UINT32_MAX /\
  local_n_of (2 ^ 31) 1 = 2 ^ 31 /\
  to_int (local_n_of (2 ^ 31) 1) = - 2 ^ 31 /\
  MPI_Scatter eight_GiB_stream (to_int (local_n_of (2 ^ 31) 1)) 1 = [[]] /\
  ~ Forall (fun slice => Z.of_nat (length slice) = local_n_of (2 ^ 31) 1)
      (MPI_Scatter eight_GiB_stream (to_int (local_n_of (2 ^ 31) 1)) 1).
Proof.
  assert (0 <= 2 ^ 31) as Hpos by lia.
  assert (local_n_of (2 ^ 31) 1 = 2 ^ 31) as Hloc by reflexivity.
  assert (to_int (2 ^ 31) = - 2 ^ 31) as Hwrap by reflexivity.
  assert (MPI_Scatter eight_GiB_stream (to_int (local_n_of (2 ^ 31) 1)) 1
          = [[]]) as Hnone.
  { rewrite MPI_Scatter_nothing by (rewrite Hloc, Hwrap; lia). reflexivity. }
  split; [apply Forall_replicate, uint32_0|].
  split.
  { unfold eight_GiB_stream. rewrite length_replicate. by apply Z2Nat.id. }
  split; [unfold UINT32_MAX; lia|].
  split; [exact Hloc|]. split; [rewrite Hloc; exact Hwrap|].
  split; [exact Hnone|].
  rewrite Hnone, Hloc. intros Hall.
  apply Forall_cons in Hall as [Hlen _]. simpl in Hlen. lia.
Qed.

(** C5, amended: for every total count [N] and worker count [W] such that
    [N / W] fits the [int] count of [MPI_Scatter], the Distributor computes
    [local_n = N / W] and hands out exactly [W] slices, slice [i] being the
    [local_n] elements from position [i * local_n] on; end to end the slices
    are the first [W * local_n] elements, the remaining [N mod W] elements
    reach no worker, and the global histogram is the histogram of the
    elements that were handed out. *)
Theorem distributor_slices (data : list Z) (N W : Z) :
  Forall uint32 data -> N = Z.of_nat (length data) -> N <= UINT32_MAX ->
  0 < W <= INT_MAX -> N / W <= INT_MAX ->
  let local_n := local_n_of N W in
  let slices := MPI_Scatter data (to_int local_n) W in
  let tail := drop (Z.to_nat (W * local_n)) data in
  local_n = N / W /\
  to_int local_n = local_n /\
  length slices = Z.to_nat W /\
  (forall i : nat, (i < Z.to_nat W)%nat ->
     exists slice,
       slices !! i = Some slice /\
       slice = take (Z.to_nat local_n) (drop (i * Z.to_nat local_n) data) /\
       Z.of_nat (length slice) = local_n) /\
  data = concat slices ++ tail /\
  Z.of_nat (length (concat slices)) = W * local_n /\
  Z.of_nat (length tail) = N mod W /\
  global_histogram data W = local_histogram (concat slices).
Proof.
  intros Hdata HN Hmax HW Hcount local_n slices tail.
  assert (local_n = N / W) as Hloc by (apply local_n_of_div; lia).
  assert (0 <= local_n) as Hpos by (rewrite Hloc; apply Z.div_pos; lia).
  assert (to_int local_n = local_n) as Hint by (apply to_int_id; lia).
  assert (W * local_n <= N) as Hfit by (rewrite Hloc; apply Z.mul_div_le; lia).
  unfold slices. rewrite Hint. clear slices.
  set (slices := MPI_Scatter data local_n W).
  assert (concat slices = take (Z.to_nat (W * local_n)) data) as Hconcat.
  { unfold slices. rewrite concat_MPI_Scatter.
    by rewrite <- Z2Nat.inj_mul by lia. }
  split; [done|]. split; [done|]. split; [apply length_MPI_Scatter|].
  split.
  { intros i Hi. eexists. split; [by apply lookup_MPI_Scatter|].
    split; [done|]. rewrite length_take, length_drop. nia. }
  split; [by rewrite Hconcat; unfold tail; rewrite take_drop|].
  split; [rewrite Hconcat, length_take; lia|].
  split.
  { unfold tail. rewrite length_drop, Hloc.
    pose proof (Z.div_mod N W). lia. }
  rewrite Hconcat.
  rewrite global_histogram_direct; [|done|lia|lia|by rewrite <- HN].
  by rewrite <- HN, <- Hloc.
Qed.

(** Ten elements on three ranks: [local_n = 3], nine elements are
    distributed and the tenth is not. *)
Lemma distributor_slices_witness :
  let data := [5; 5; 5; 5; 5; 5; 5; 5; 5; 5] in
  let N := 10 in
  let W := 3 in
  (Forall uint32 data /\ N = Z.of_nat (length data) /\ N <= UINT32_MAX /\
   0 < W <= INT_MAX /\ N / W <= INT_MAX) /\
  let local_n := local_n_of N W in
  let slices := MPI_Scatter data (to_int local_n) W in
  let tail := drop (Z.to_nat (W * local_n)) data in
  local_n = N / W /\
  to_int local_n = local_n /\
  length slices = Z.to_nat W /\
  (forall i : nat, (i < Z.to_nat W)%nat ->
     exists slice,
       slices !! i = Some slice /\
       slice = take (Z.to_nat local_n) (drop (i * Z.to_nat local_n) data) /\
       Z.of_nat (length slice) = local_n) /\
  data = concat slices ++ tail /\
  Z.of_nat (length (concat slices)) = W * local_n /\
  Z.of_nat (length tail) = N mod W /\
  global_histogram data W = local_histogram (concat slices).
Proof.
  intros data N W.
  assert (Forall uint32 data) as Hdata
    by (repeat constructor; vm_compute; congruence).
  assert (N = Z.of_nat (length data)) as HN by reflexivity.
  assert (N <= UINT32_MAX) as Hmax by (vm_compute; congruence).
  assert (0 < W <= INT_MAX) as HW by (split; vm_compute; congruence).
  assert (N / W <= INT_MAX) as Hcount by (vm_compute; congruence).
  split; [exact (conj Hdata (conj HN (conj Hmax (conj HW Hcount))))|].
  exact (distributor_slices data N W Hdata HN Hmax HW Hcount).
Defined.

Example dropped_tail :
  local_n_of 10 3 = 3 /\
  MPI_Scatter [0; 1; 2; 3; 4; 5; 6; 7; 8; 9] 3 3
    = [[0; 1; 2]; [3; 4; 5]; [6; 7; 8]] /\
  global_histogram [5; 5; 5; 5; 5; 5; 5; 5; 5; 5] 3 !! 5%nat = Some 9 /\
  sumZ (global_histogram [0; 1; 2; 3; 4; 5; 6; 7; 8; 9] 3) = 9 /\
  global_histogram [0; 1; 2; 3; 4; 5; 6; 7; 8; 9] 3 !! 9%nat = Some 0.
Proof. by vm_compute. Qed.

(** ** What the reader hands to the pipeline *)

Lemma Binary_Reader_spec native file :
  exists N data,
    Binary_Reader native file = (N, data) /\
    0 <= N <= UINT32_MAX /\ Z.of_nat (length data) = N /\
    Forall uint32 data.
Proof.
  destruct file as [bytes|].
  - rewrite Binary_Reader_readable.
    set (N := count_of_size (Z.of_nat (length bytes))).
    pose proof (count_of_size_range (Z.of_nat (length bytes))) as HN.
    pose proof (count_of_size_fits (Z.of_nat (length bytes))) as Hfit.
    fold N in HN, Hfit.
    assert (length (take (Z.to_nat (N * sizeof_uint32)) bytes)
            = (4 * Z.to_nat N)%nat) as Hlen.
    { rewrite length_take. unfold sizeof_uint32 in *. lia. }
    eexists _, _. split; [done|]. split; [done|].
    split; [|by eapply Forall_uint32_load_words].
    rewrite (length_load_words native (Z.to_nat N)) by done. lia.
  - rewrite Binary_Reader_unopenable.
    eexists _, _. split; [done|].
    pose proof UINT32_MAX_nonneg.
    split; [lia|]. split; [|apply Forall_replicate, uint32_0].
    rewrite length_replicate. lia.
Qed.

Lemma Sparse_JSON_Emitter_no_samples :
  Sparse_JSON_Emitter (local_histogram []) = "{}" +:+ newline.
Proof. by vm_compute. Qed.

(** C10.  Whenever the element count [N] the reader derives is below the
    worker count, [local_n] is 0, every rank receives the empty slice, no
    element of the input is distributed, and the job writes the text
    [{}] followed by a newline. *)
Theorem fewer_elements_than_workers native (size : Z) (fs : files) :
  (Binary_Reader native (input_bin fs)).1 < size -> size <= INT_MAX ->
  let N := (Binary_Reader native (input_bin fs)).1 in
  let data := (Binary_Reader native (input_bin fs)).2 in
  local_n_of N size = 0 /\
  MPI_Scatter data (local_n_of N size) size = replicate (Z.to_nat size) [] /\
  concat (MPI_Scatter data (local_n_of N size) size) = [] /\
  main native size fs
    = (0, mk_files (input_bin fs) (Some ("{}" +:+ newline))).
Proof.
  destruct (Binary_Reader_spec native (input_bin fs))
    as (N & data & Hread & HN & Hlen & Hdata).
  unfold main, main_by. rewrite Hread. simpl fst. simpl snd.
  intros Hlt Hsize.
  assert (local_n_of N size = 0) as Hloc.
  { rewrite local_n_of_div by lia. apply Z.div_small. lia. }
  split; [done|]. rewrite Hloc.
  split.
  { apply list_eq. intros r. unfold MPI_Scatter.
    rewrite list_lookup_fmap.
    destruct (decide (r < Z.to_nat size)%nat) as [Hr|Hr].
    - rewrite lookup_seq_lt, lookup_replicate_2 by done. done.
    - rewrite lookup_seq_ge by lia. symmetry.
      apply lookup_replicate_None. lia. }
  split; [by rewrite concat_MPI_Scatter, Nat.mul_0_r|].
  rewrite global_histogram_by_direct by (done || lia).
  rewrite Hloc. change (to_int 0) with 0.
  rewrite Nat.mul_0_r, take_0.
  by rewrite Sparse_JSON_Emitter_no_samples.
Qed.

Lemma fewer_elements_than_workers_witness :
  let native := LittleEndian in
  let size := 4 in
  let fs := mk_files (Some [Byte.x07; Byte.x00; Byte.x00; Byte.x00;
                            Byte.x09; Byte.x00; Byte.x00; Byte.x00;
                            Byte.x01]) None in
  ((Binary_Reader native (input_bin fs)).1 < size /\ size <= INT_MAX) /\
  let N := (Binary_Reader native (input_bin fs)).1 in
  let data := (Binary_Reader native (input_bin fs)).2 in
  local_n_of N size = 0 /\
  MPI_Scatter data (local_n_of N size) size = replicate (Z.to_nat size) [] /\
  concat (MPI_Scatter data (local_n_of N size) size) = [] /\
  main native size fs
    = (0, mk_files (input_bin fs) (Some ("{}" +:+ newline))).
Proof.
  intros native size fs.
  assert ((Binary_Reader native (input_bin fs)).1 < size) as Hlt
    by reflexivity.
  assert (size <= INT_MAX) as Hsize by (vm_compute; congruence).
  split; [done|].
  exact (fewer_elements_than_workers native size fs Hlt Hsize).
Defined.

(** ** Sparse JSON Emitter: the contract *)

Lemma elem_of_buckets h i c :
  length h = Z.to_nat MAXVAL ->
  (i, c) ∈ buckets h <-> 0 <= i < MAXVAL /\ h !! Z.to_nat i = Some c.
Proof.
  intros Hlen. unfold buckets, buckets_of. rewrite list_elem_of_fmap. split.
  - intros (j & [= -> ->] & Hj). apply elem_of_seqZ in Hj.
    split; [lia|]. apply list_lookup_lookup_total_lt. lia.
  - intros [Hi Hc]. exists i. split; [|apply elem_of_seqZ; lia].
    f_equal. symmetry. by apply list_lookup_total_correct.
Qed.

Lemma StronglySorted_seqZ m (k : nat) :
  StronglySorted Z.lt (seqZ m (Z.of_nat k)).
Proof.
  induction k as [|k IH]; [constructor|].
  rewrite seqZ_S. apply StronglySorted_app. split; [|split].
  - intros x1 x2 Hx1 Hx2. apply elem_of_seqZ in Hx1.
    apply list_elem_of_singleton in Hx2. lia.
  - done.
  - repeat constructor.
Qed.

Lemma StronglySorted_filter_buckets h (P : Z * Z -> Prop)
    `{!forall e, Decision (P e)} indices :
  StronglySorted Z.lt indices ->
  StronglySorted Z.lt (filter P (buckets_of h indices)).*1.
Proof.
  induction 1 as [|i indices Hsorted IH Hall]; [constructor|].
  unfold buckets_of. rewrite fmap_cons. fold (buckets_of h indices).
  destruct (decide (P (i, h !!! Z.to_nat i))) as [HP|HP].
  - rewrite filter_cons_True by done. rewrite fmap_cons.
    constructor; [done|]. simpl fst.
    apply Forall_forall. intros j Hj.
    apply list_elem_of_fmap in Hj as ([j' c] & -> & Hj).
    apply list_elem_of_filter in Hj as [_ Hj].
    apply list_elem_of_fmap in Hj as (j'' & [= -> ->] & Hj).
    simpl. by eapply Forall_forall in Hall.
  - by rewrite filter_cons_False.
Qed.

Lemma all_chars_app P s t :
  all_chars P (s +:+ t) <-> all_chars P s /\ all_chars P t.
Proof.
  induction s as [|a s IH]; [simpl; tauto|].
  rewrite string_app_cons. simpl. rewrite IH. tauto.
Qed.

Lemma all_chars_impl (P Q : ascii -> Prop) s :
  (forall a, P a -> Q a) -> all_chars P s -> all_chars Q s.
Proof.
  intros HPQ. induction s as [|a s IH]; simpl; [done|].
  intros [Ha Hs]. split; [by apply HPQ|by apply IH].
Qed.

Lemma pretty_N_char_digit d : digit_or_minus (pretty_N_char d).
Proof.
  left. unfold pretty_N_char.
  repeat case_match; vm_compute; split; repeat constructor.
Qed.

Lemma all_chars_pretty_N_go x : forall s,
  all_chars digit_or_minus s -> all_chars digit_or_minus (pretty_N_go x s).
Proof.
  induction (N.lt_wf_0 x) as [x _ IH]. intros s Hs.
  destruct (decide (x = 0)%N) as [->|Hx]; [by rewrite pretty_N_go_0|].
  rewrite pretty_N_go_step by lia. apply IH.
  - apply N.div_lt; lia.
  - split; [apply pretty_N_char_digit|done].
Qed.

Lemma all_chars_pretty_Z (x : Z) : all_chars digit_or_minus (pretty x).
Proof.
  assert (forall p : positive, all_chars digit_or_minus (pretty p)) as Hp.
  { intros p. unfold pretty, pretty_positive, pretty, pretty_N.
    case_decide; [done|]. by apply all_chars_pretty_N_go. }
  destruct x as [|p|p]; unfold pretty, pretty_Z.
  - simpl. split; [|done]. left. vm_compute. split; repeat constructor.
  - apply Hp.
  - apply all_chars_app. split; [|apply Hp].
    split; [|done]. by right.
Qed.

Lemma all_chars_json_entry e : all_chars on_one_line (json_entry e).
Proof.
  assert (forall x : Z, all_chars on_one_line (pretty x)) as Hpretty.
  { intros x. eapply all_chars_impl; [|apply all_chars_pretty_Z].
    intros a [Ha|Ha] ->; vm_compute in Ha; lia. }
  unfold json_entry. rewrite !all_chars_app.
  repeat split; try apply Hpretty; by vm_compute.
Qed.

Lemma all_chars_concat_entries es :
  all_chars on_one_line (String.concat "," (json_entry <$> es)).
Proof.
  induction es as [|e es IH]; [done|].
  rewrite fmap_cons. destruct es as [|e' es]; [apply all_chars_json_entry|].
  rewrite fmap_cons in *.
  change (String.concat "," (json_entry e :: json_entry e' :: (json_entry <$> es)))
    with (json_entry e +:+ "," +:+
          String.concat "," (json_entry e' :: (json_entry <$> es))).
  rewrite !all_chars_app. split; [apply all_chars_json_entry|].
  split; [by vm_compute|done].
Qed.

(** The object is one line of text: it holds no line feed. *)
Lemma all_chars_json_object es : all_chars on_one_line (json_object es).
Proof.
  unfold json_object. rewrite !all_chars_app.
  split; [by vm_compute|]. split; [apply all_chars_concat_entries|by vm_compute].
Qed.

Lemma elem_of_positive_buckets h i c :
  length h = Z.to_nat MAXVAL ->
  (i, c) ∈ positive_buckets h
  <-> 0 <= i < MAXVAL /\ h !! Z.to_nat i = Some c /\ 0 < c.
Proof.
  intros Hlen. unfold positive_buckets.
  rewrite list_elem_of_filter, elem_of_buckets by done. simpl. tauto.
Qed.

Lemma lookup_total_nonneg (h : list Z) (n : nat) :
  Forall (fun c => 0 <= c) h -> 0 <= h !!! n.
Proof.
  intros Hh. destruct (h !! n) as [c|] eqn:Hn.
  - rewrite (list_lookup_total_correct _ _ _ Hn).
    by eapply Forall_lookup in Hh.
  - rewrite list_lookup_total_alt, Hn. done.
Qed.

(** Among counters that are not negative, the positive ones are the ones
    that are not zero. *)
Lemma nonzero_buckets_positive h :
  Forall (fun c => 0 <= c) h -> nonzero_buckets h = positive_buckets h.
Proof.
  intros Hh. unfold nonzero_buckets, positive_buckets, buckets.
  induction (seqZ 0 MAXVAL) as [|i indices IH]; [done|].
  unfold buckets_of in *. rewrite fmap_cons.
  pose proof (lookup_total_nonneg h (Z.to_nat i) Hh) as Hi.
  destruct (decide (h !!! Z.to_nat i = 0)) as [Hz|Hnz].
  - rewrite !filter_cons_False by (simpl; lia). done.
  - rewrite !filter_cons_True by (simpl; lia). by rewrite IH.
Qed.

(** C9.  The emitter writes a bucket if and only if its counter is
    strictly positive: the text is the object of exactly the pairs
    [(i, global_hist[i])] with [global_hist[i] > 0], in ascending order of
    [i]; a counter that is zero or negative is left out, and every count
    written is strictly positive. *)
Theorem emitter_keeps_positive_counters (global_hist : list Z) :
  length global_hist = Z.to_nat MAXVAL ->
  let es := positive_buckets global_hist in
  Sparse_JSON_Emitter global_hist = json_object es +:+ newline /\
  (forall i c, (i, c) ∈ es
     <-> 0 <= i < MAXVAL /\ global_hist !! Z.to_nat i = Some c /\ 0 < c) /\
  (forall i c, 0 <= i < MAXVAL -> global_hist !! Z.to_nat i = Some c ->
     c <= 0 -> i ∉ es.*1) /\
  StronglySorted Z.lt es.*1 /\
  Forall (fun e => 0 < e.2) es.
Proof.
  intros Hlen es.
  split; [apply Sparse_JSON_Emitter_positive_buckets|].
  split; [intros i c; by apply elem_of_positive_buckets|].
  split.
  { intros i c Hi Hc Hle Hin.
    apply list_elem_of_fmap in Hin as ([i' c'] & -> & Hin).
    apply elem_of_positive_buckets in Hin as (_ & Hc' & Hpos); [|done].
    simpl in *. rewrite Hc in Hc'. injection Hc' as ->. lia. }
  split.
  { apply StronglySorted_filter_buckets.
    change MAXVAL with (Z.of_nat 1024). apply StronglySorted_seqZ. }
  apply Forall_forall. intros e He.
  by apply list_elem_of_filter in He as [He _].
Qed.

Lemma emitter_keeps_positive_counters_witness :
  let global_hist := <[3%nat := -5]> (<[7%nat := 4]> (replicate 1024 0)) in
  length global_hist = Z.to_nat MAXVAL /\
  let es := positive_buckets global_hist in
  Sparse_JSON_Emitter global_hist = json_object es +:+ newline /\
  (forall i c, (i, c) ∈ es
     <-> 0 <= i < MAXVAL /\ global_hist !! Z.to_nat i = Some c /\ 0 < c) /\
  (forall i c, 0 <= i < MAXVAL -> global_hist !! Z.to_nat i = Some c ->
     c <= 0 -> i ∉ es.*1) /\
  StronglySorted Z.lt es.*1 /\
  Forall (fun e => 0 < e.2) es.
Proof.
  intros global_hist.
  assert (length global_hist = Z.to_nat MAXVAL) as Hlen by reflexivity.
  split; [done|]. exact (emitter_keeps_positive_counters global_hist Hlen).
Defined.

(** A negative counter is left out like an untouched one. *)
Example negative_counter_omitted :
  Sparse_JSON_Emitter (<[3%nat := -5]> (<[7%nat := 4]> (replicate 1024 0)))
  = "{" +:+ dquote +:+ "7" +:+ dquote +:+ ":4}" +:+ newline.
Proof. by vm_compute. Qed.

(** C4.  For every global histogram whose counters are not negative the
    emitter writes one line: an opening brace, the entries of exactly the
    buckets with a non-zero count, each the decimal bucket index in quotes,
    a colon and the decimal count, in ascending order of the index and
    separated by commas with none trailing, a closing brace, and a newline.
    An all-zero histogram gives [{}]. *)
Theorem emitter_output (global_hist : list Z) :
  length global_hist = Z.to_nat MAXVAL ->
  Forall (fun c => 0 <= c) global_hist ->
  let es := nonzero_buckets global_hist in
  let object := "{" +:+ String.concat "," (json_entry <$> es) +:+ "}" in
  Sparse_JSON_Emitter global_hist = object +:+ newline /\
  all_chars on_one_line object /\
  (forall i c, (i, c) ∈ es
     <-> 0 <= i < MAXVAL /\ global_hist !! Z.to_nat i = Some c /\ c <> 0) /\
  StronglySorted Z.lt es.*1 /\
  (Forall (fun c => c = 0) global_hist -> object = "{}").
Proof.
  intros Hlen Hnonneg es object.
  assert (es = positive_buckets global_hist) as Hes
    by by apply nonzero_buckets_positive.
  split.
  { rewrite Sparse_JSON_Emitter_positive_buckets, <- Hes. done. }
  split; [apply all_chars_json_object|].
  split.
  { intros i c. unfold es, nonzero_buckets.
    rewrite list_elem_of_filter, elem_of_buckets by done. simpl. tauto. }
  split.
  { apply StronglySorted_filter_buckets.
    change MAXVAL with (Z.of_nat 1024). apply StronglySorted_seqZ. }
  intros Hzero. unfold object. rewrite Hes, positive_buckets_none; [done|].
  intros b Hb.
  destruct (lookup_lt_is_Some_2 global_hist b) as [c Hc]; [lia|].
  rewrite (list_lookup_total_correct _ _ _ Hc).
  eapply Forall_lookup in Hzero; [|done]. lia.
Qed.

Lemma emitter_output_witness :
  let global_hist := <[3%nat := 120]> (<[512%nat := 4]> (replicate 1024 0)) in
  (length global_hist = Z.to_nat MAXVAL /\
   Forall (fun c => 0 <= c) global_hist) /\
  let es := nonzero_buckets global_hist in
  let object := "{" +:+ String.concat "," (json_entry <$> es) +:+ "}" in
  Sparse_JSON_Emitter global_hist = object +:+ newline /\
  all_chars on_one_line object /\
  (forall i c, (i, c) ∈ es
     <-> 0 <= i < MAXVAL /\ global_hist !! Z.to_nat i = Some c /\ c <> 0) /\
  StronglySorted Z.lt es.*1 /\
  (Forall (fun c => c = 0) global_hist -> object = "{}").
Proof.
  intros global_hist.
  assert (length global_hist = Z.to_nat MAXVAL) as Hlen by reflexivity.
  assert (Forall (fun c => 0 <= c) global_hist) as Hnonneg.
  { apply Forall_insert; [|by vm_compute].
    apply Forall_insert; [|by vm_compute].
    apply Forall_replicate. by vm_compute. }
  split; [done|]. exact (emitter_output global_hist Hlen Hnonneg).
Defined.

(** The examples of the interface description, run. *)
Example emitter_examples :
  Sparse_JSON_Emitter (<[3%nat := 120]> (<[512%nat := 4]> (replicate 1024 0)))
  = "{" +:+ dquote +:+ "3" +:+ dquote +:+ ":120,"
        +:+ dquote +:+ "512" +:+ dquote +:+ ":4}" +:+ newline /\
  Sparse_JSON_Emitter (replicate 1024 0) = "{}" +:+ newline /\
  Sparse_JSON_Emitter (global_histogram [] 4) = "{}" +:+ newline /\
  Sparse_JSON_Emitter (global_histogram [7; 7; 7; 7] 2)
  = "{" +:+ dquote +:+ "7" +:+ dquote +:+ ":4}" +:+ newline /\
  Sparse_JSON_Emitter (global_histogram [0; 1; 1; 2; 1023; 1024; 2000] 1)
  = "{" +:+ dquote +:+ "0" +:+ dquote +:+ ":1,"
        +:+ dquote +:+ "1" +:+ dquote +:+ ":2,"
        +:+ dquote +:+ "2" +:+ dquote +:+ ":1,"
        +:+ dquote +:+ "1023" +:+ dquote +:+ ":1}" +:+ newline.
Proof. by vm_compute. Qed.

(** ** Binary Reader: the contract *)

(** C6, as stated, fails.  The file [sixteen_GiB] holds [2^32] elements,
    one more than [total_count], a [uint32_t], can express: the reader
    derives the count 0 and reads nothing. *)
Lemma element_count_counterexample :
  Z.of_nat (length sixteen_GiB) / 4 = 2 ^ 32 /\
  Binary_Reader LittleEndian (Some sixteen_GiB) = (0, []) /\
  (Binary_Reader LittleEndian (Some sixteen_GiB)).1
    <> Z.of_nat (length sixteen_GiB) / 4.
Proof.
  assert (0 <= 2 ^ 34) as Hpos by by vm_compute.
  rewrite Binary_Reader_readable. unfold sixteen_GiB.
  rewrite length_replicate, Z2Nat.id by done.
  change (count_of_size (2 ^ 34)) with 0.
  change (Z.to_nat (0 * sizeof_uint32)) with 0%nat.
  rewrite take_0. by vm_compute.
Qed.

Lemma count_of_size_exact size :
  0 <= size < 2 ^ 63 -> count_of_size size = (size / 4) mod 2 ^ 32.
Proof.
  intros Hsize. unfold count_of_size, to_uint32, to_uint64, sizeof_uint32.
  by rewrite (Z.mod_small size) by lia.
Qed.

(** C6, amended: for every readable input file (of fewer than [2^63] bytes,
    as every file is) the reader derives [N = (size / 4) mod 2^32], which is
    [size / 4] whenever that fits a [uint32_t]; it reads exactly [N] values,
    value [i] being the word that bytes [4i .. 4i+3] hold in native byte
    order; the bytes after the first [4 N], a partial element among them,
    have no influence, and nothing reports them. *)
Theorem binary_reader_reads (native : byte_order) (bytes : list byte) :
  Z.of_nat (length bytes) < 2 ^ 63 ->
  let size := Z.of_nat (length bytes) in
  let N := (Binary_Reader native (Some bytes)).1 in
  let data := (Binary_Reader native (Some bytes)).2 in
  N = (size / 4) mod 2 ^ 32 /\
  (size / 4 <= UINT32_MAX -> N = size / 4) /\
  Z.of_nat (length data) = N /\
  (forall i : nat, Z.of_nat i < N ->
     data !! i = Some (word_of_bytes native (take 4 (drop (4 * i) bytes)))) /\
  Binary_Reader native (Some bytes)
    = Binary_Reader native (Some (take (Z.to_nat (4 * N)) bytes)).
Proof.
  intros Hsize size N data.
  pose proof (count_of_size_range size) as HN.
  pose proof (count_of_size_fits size) as Hfit.
  assert (N = count_of_size size) as HNeq
    by (unfold N; by rewrite Binary_Reader_readable).
  assert (data = load_words native (take (Z.to_nat (4 * N)) bytes)) as Hdata.
  { unfold data. rewrite Binary_Reader_readable. simpl snd.
    fold size. rewrite <- HNeq. by rewrite (Z.mul_comm N). }
  assert (length (take (Z.to_nat (4 * N)) bytes) = (4 * Z.to_nat N)%nat)
    as Hlen.
  { rewrite length_take. unfold sizeof_uint32, size in *. lia. }
  assert (N = (size / 4) mod 2 ^ 32) as Hmod.
  { rewrite HNeq. apply count_of_size_exact. unfold size. lia. }
  split; [done|].
  split.
  { intros Hle. rewrite Hmod. apply Z.mod_small. unfold UINT32_MAX in *.
    split; [apply Z.div_pos; unfold size; lia|lia]. }
  split.
  { rewrite Hdata, (length_load_words native (Z.to_nat N)) by done. lia. }
  split.
  { intros i Hi. rewrite Hdata.
    rewrite (lookup_load_words native i (Z.to_nat N)) by (done || lia).
    do 2 f_equal. rewrite take_drop_commute, take_take.
    replace (Nat.min (4 * i + 4) (Z.to_nat (4 * N))) with (4 * i + 4)%nat
      by lia.
    by rewrite <- take_drop_commute. }
  rewrite (Binary_Reader_readable native (take _ _)), Hlen.
  rewrite Binary_Reader_readable. fold size. rewrite <- HNeq.
  replace (Z.of_nat (4 * Z.to_nat N)) with (4 * N) by lia.
  assert (count_of_size (4 * N) = N) as Hsame.
  { rewrite count_of_size_exact by (unfold sizeof_uint32, size in *; lia).
    rewrite (Z.mul_comm 4), Z.div_mul by lia.
    apply Z.mod_small. unfold UINT32_MAX in *. lia. }
  rewrite Hsame, (Z.mul_comm N), take_take.
  by rewrite Nat.min_id.
Qed.

(** Two whole elements and one stray byte. *)
Lemma binary_reader_reads_witness :
  let native := LittleEndian in
  let bytes := [Byte.x07; Byte.x00; Byte.x00; Byte.x00;
                Byte.xff; Byte.x03; Byte.x00; Byte.x00;
                Byte.x01] in
  Z.of_nat (length bytes) < 2 ^ 63 /\
  let size := Z.of_nat (length bytes) in
  let N := (Binary_Reader native (Some bytes)).1 in
  let data := (Binary_Reader native (Some bytes)).2 in
  N = (size / 4) mod 2 ^ 32 /\
  (size / 4 <= UINT32_MAX -> N = size / 4) /\
  Z.of_nat (length data) = N /\
  (forall i : nat, Z.of_nat i < N ->
     data !! i = Some (word_of_bytes native (take 4 (drop (4 * i) bytes)))) /\
  Binary_Reader native (Some bytes)
    = Binary_Reader native (Some (take (Z.to_nat (4 * N)) bytes)).
Proof.
  intros native bytes.
  assert (Z.of_nat (length bytes) < 2 ^ 63) as Hsize by reflexivity.
  split; [done|]. exact (binary_reader_reads native bytes Hsize).
Defined.

Example binary_reader_examples :
  Binary_Reader LittleEndian
    (Some [Byte.x07; Byte.x00; Byte.x00; Byte.x00;
           Byte.xff; Byte.x03; Byte.x00; Byte.x00; Byte.x01])
  = (2, [7; 1023]) /\
  Binary_Reader BigEndian
    (Some [Byte.x00; Byte.x00; Byte.x00; Byte.x07;
           Byte.x00; Byte.x00; Byte.x03; Byte.xff; Byte.x01; Byte.x02])
  = (2, [7; 1023]) /\
  Binary_Reader LittleEndian (Some [Byte.x07; Byte.x00; Byte.x00]) = (0, []).
Proof. by vm_compute. Qed.

(** ** A file that cannot be opened *)

Lemma main_by_unfold arrival native size fs :
  main_by arrival native size fs
  = (0, mk_files (input_bin fs)
          (Some (Sparse_JSON_Emitter
                   (global_histogram_by arrival
                      (Binary_Reader native (input_bin fs)).1
                      (Binary_Reader native (input_bin fs)).2 size)))).
Proof.
  unfold main_by.
  by destruct (Binary_Reader native (input_bin fs)) as [total_count data].
Qed.

Lemma global_histogram_by_unopenable :
  global_histogram_by (rank_order 2) UINT32_MAX
    (replicate (Z.to_nat UINT32_MAX) 0) 2
  = local_histogram overflowing_stream.
Proof.
  unfold overflowing_stream. apply global_histogram_by_zeros.
  - reflexivity.
  - apply Z2Nat.id, stream_size_nonneg.
  - apply Z2Nat.inj_le; [apply stream_size_nonneg|apply UINT32_MAX_nonneg|].
    unfold UINT32_MAX. lia.
Qed.

Lemma main_unopenable_two_ranks out :
  main LittleEndian 2 (mk_files None out)
  = (0, mk_files None (Some ("{}" +:+ newline))).
Proof.
  unfold main. rewrite main_by_unfold.
  change (input_bin (mk_files None out)) with (@None (list byte)).
  rewrite Binary_Reader_unopenable.
  cbv beta iota delta [fst snd].
  rewrite global_histogram_by_unopenable. unfold overflowing_stream.
  rewrite Sparse_JSON_Emitter_overflowed; [reflexivity|].
  apply Z2Nat.id, stream_size_nonneg.
Qed.

(** C7, as stated, fails.  On two ranks and with no [input.bin] to open the
    job signals no failure: rank 0 exits with status 0 and writes
    [output.json], having processed the [2^32 - 1] zero samples the failed
    read left in [data]. *)
Lemma unopenable_file_counterexample :
  input_bin (mk_files None None) = None /\
  Binary_Reader LittleEndian None
    = (UINT32_MAX, replicate (Z.to_nat UINT32_MAX) 0) /\
  main LittleEndian 2 (mk_files None None)
    = (0, mk_files None (Some ("{}" +:+ newline))) /\
  ~ failure_signalled (main LittleEndian 2 (mk_files None None)).
Proof.
  split; [reflexivity|].
  split; [apply Binary_Reader_unopenable|].
  split; [apply main_unopenable_two_ranks|].
  rewrite main_unopenable_two_ranks.
  intros [H|H]; [by apply H|discriminate H].
Qed.

(** A readable file of zero bytes holds zero samples, four bytes each. *)
Lemma Binary_Reader_zero_bytes native (n : nat) :
  Z.of_nat n <= UINT32_MAX ->
  Binary_Reader native (Some (replicate (4 * n) Byte.x00))
  = (Z.of_nat n, replicate n 0).
Proof.
  intros Hn. rewrite Binary_Reader_readable, length_replicate.
  assert (count_of_size (Z.of_nat (4 * n)) = Z.of_nat n) as ->.
  { unfold count_of_size, to_uint32, to_uint64, sizeof_uint32, UINT32_MAX in *.
    rewrite (Z.mod_small (Z.of_nat (4 * n))) by lia.
    replace (Z.of_nat (4 * n)) with (Z.of_nat n * 4) by lia.
    rewrite Z.div_mul by lia. apply Z.mod_small. lia. }
  rewrite take_replicate.
  replace (Nat.min (Z.to_nat (Z.of_nat n * sizeof_uint32)) (4 * n))
    with (4 * n)%nat by (unfold sizeof_uint32; lia).
  by rewrite load_words_zero.
Qed.

Lemma Binary_Reader_zero_samples_file native :
  Binary_Reader native (Some zero_samples_file)
  = (UINT32_MAX, replicate (Z.to_nat UINT32_MAX) 0).
Proof.
  unfold zero_samples_file. rewrite Binary_Reader_zero_bytes.
  - rewrite Z2Nat.id by apply UINT32_MAX_nonneg. reflexivity.
  - rewrite Z2Nat.id by apply UINT32_MAX_nonneg. apply Z.le_refl.
Qed.

(** C7, amended: if the input file cannot be opened, the reader neither
    fails nor reports it.  The failed size query makes the element count
    [UINT32_MAX] and the buffer stays filled with zeros: the reader returns
    what it returns for the readable file [zero_samples_file], and on every
    number of ranks the job leaves the [output.json] it leaves for that
    file. *)
Theorem unopenable_file_not_detected native :
  Binary_Reader native None
    = (UINT32_MAX, replicate (Z.to_nat UINT32_MAX) 0) /\
  Binary_Reader native None = Binary_Reader native (Some zero_samples_file) /\
  forall arrival size out,
    output_json (main_by arrival native size (mk_files None out)).2
    = output_json
        (main_by arrival native size
           (mk_files (Some zero_samples_file) out)).2.
Proof.
  split; [apply Binary_Reader_unopenable|].
  split.
  { rewrite Binary_Reader_zero_samples_file. apply Binary_Reader_unopenable. }
  intros arrival size out. rewrite !main_by_unfold.
  change (input_bin (mk_files None out)) with (@None (list byte)).
  change (input_bin (mk_files (Some zero_samples_file) out))
    with (Some zero_samples_file).
  rewrite Binary_Reader_zero_samples_file, Binary_Reader_unopenable.
  reflexivity.
Qed.

(** ** Determinism *)

Lemma global_histogram_by_arrival arrival1 arrival2 N data size :
  Forall uint32 data ->
  Permutation arrival1 (rank_order size) ->
  Permutation arrival2 (rank_order size) ->
  global_histogram_by arrival1 N data size
  = global_histogram_by arrival2 N data size.
Proof.
  intros Hdata Hp1 Hp2.
  destruct (decide (0 < size)) as [Hsize|Hsize].
  - by rewrite !global_histogram_by_direct.
  - unfold rank_order in *. replace (Z.to_nat size) with 0%nat in * by lia.
    simpl in Hp1, Hp2. apply Permutation_nil_r in Hp1, Hp2. by subst.
Qed.



(** The scenarios of the test list, run from the bytes of [input.bin]. *)
Example main_examples :
  (main LittleEndian 1
    (mk_files (Some [Byte.x00; Byte.x00; Byte.x00; Byte.x00;
                     Byte.x01; Byte.x00; Byte.x00; Byte.x00;
                     Byte.x01; Byte.x00; Byte.x00; Byte.x00;
                     Byte.x02; Byte.x00; Byte.x00; Byte.x00;
                     Byte.xff; Byte.x03; Byte.x00; Byte.x00;
                     Byte.x00; Byte.x04; Byte.x00; Byte.x00;
                     Byte.xd0; Byte.x07; Byte.x00; Byte.x00]) None)).2
  = mk_files (Some [Byte.x00; Byte.x00; Byte.x00; Byte.x00;
                    Byte.x01; Byte.x00; Byte.x00; Byte.x00;
                    Byte.x01; Byte.x00; Byte.x00; Byte.x00;
                    Byte.x02; Byte.x00; Byte.x00; Byte.x00;
                    Byte.xff; Byte.x03; Byte.x00; Byte.x00;
                    Byte.x00; Byte.x04; Byte.x00; Byte.x00;
                    Byte.xd0; Byte.x07; Byte.x00; Byte.x00])
      (Some ("{" +:+ dquote +:+ "0" +:+ dquote +:+ ":1,"
                 +:+ dquote +:+ "1" +:+ dquote +:+ ":2,"
                 +:+ dquote +:+ "2" +:+ dquote +:+ ":1,"
                 +:+ dquote +:+ "1023" +:+ dquote +:+ ":1}" +:+ newline)) /\
  main LittleEndian 5 (mk_files (Some []) None)
  = (0, mk_files (Some []) (Some ("{}" +:+ newline))).
Proof. by vm_compute. Qed.

(** * [sampler_test.cpp] *)

(** ** [_split] *)

Lemma split_eq s delim : _split s delim = split_from delim [] [] s.
Proof. reflexivity. Qed.

Lemma split_from_nil delim es it :
  split_from delim es it [] = push_item es it.
Proof. reflexivity. Qed.

Lemma split_char_delim delim st :
  split_char delim st delim
  = mk_splitter (push_item (elems st) (item st)) [].
Proof. unfold split_char. by rewrite Ascii.eqb_refl. Qed.

Lemma split_char_other delim st ch :
  ch <> delim ->
  split_char delim st ch = mk_splitter (elems st) (item st ++ [ch]).
Proof.
  intros Hne. unfold split_char. apply Ascii.eqb_neq in Hne. by rewrite Hne.
Qed.

Lemma split_from_delim delim es it s :
  split_from delim es it (delim :: s)
  = split_from delim (push_item es it) [] s.
Proof.
  unfold split_from. simpl foldl. rewrite split_char_delim. reflexivity.
Qed.

Lemma split_from_other delim es it ch s :
  ch <> delim ->
  split_from delim es it (ch :: s) = split_from delim es (it ++ [ch]) s.
Proof.
  intros Hne. unfold split_from.
  simpl foldl. rewrite split_char_other by done. reflexivity.
Qed.

Lemma push_item_elems es it : push_item es it = es ++ push_item [] it.
Proof. destruct it; simpl; by rewrite ?app_nil_r. Qed.

(** The elements already pushed stay in front, untouched. *)
Lemma split_from_elems delim s : forall es it,
  split_from delim es it s = es ++ split_from delim [] it s.
Proof.
  induction s as [|ch s IH]; intros es it.
  - rewrite !split_from_nil. apply push_item_elems.
  - destruct (decide (ch = delim)) as [->|Hne].
    + rewrite !split_from_delim, (IH (push_item es it)),
        (IH (push_item [] it)), (push_item_elems es it).
      by rewrite app_assoc.
    + rewrite !split_from_other by done. apply IH.
Qed.

Lemma split_from_at_delim delim s1 s2 : forall it,
  split_from delim [] it (s1 ++ delim :: s2)
  = split_from delim [] it s1 ++ split_from delim [] [] s2.
Proof.
  induction s1 as [|ch s1 IH]; intros it.
  - rewrite app_nil_l, split_from_delim, split_from_nil.
    apply split_from_elems.
  - rewrite <- app_comm_cons.
    destruct (decide (ch = delim)) as [->|Hne].
    + rewrite !split_from_delim, !(split_from_elems _ _ (push_item [] it)).
      by rewrite IH, app_assoc.
    + rewrite !split_from_other by done. apply IH.
Qed.

Lemma split_from_no_delim delim s : forall it,
  delim ∉ s -> split_from delim [] it s = push_item [] (it ++ s).
Proof.
  induction s as [|ch s IH]; intros it Hs.
  - by rewrite split_from_nil, app_nil_r.
  - apply not_elem_of_cons in Hs as [Hne Hs].
    rewrite split_from_other by done. rewrite IH by done.
    by rewrite <- app_assoc.
Qed.

Lemma Forall_push_item (P : list ascii -> Prop) it :
  (it <> [] -> P it) -> Forall P (push_item [] it).
Proof.
  intros HP. destruct it as [|c it]; [constructor|].
  simpl. repeat constructor. by apply HP.
Qed.

Lemma Forall_field_split_from delim s : forall it,
  delim ∉ it -> Forall (field_of delim) (split_from delim [] it s).
Proof.
  induction s as [|ch s IH]; intros it Hit.
  - rewrite split_from_nil. by apply Forall_push_item.
  - destruct (decide (ch = delim)) as [->|Hne].
    + rewrite split_from_delim, split_from_elems. apply Forall_app. split.
      * by apply Forall_push_item.
      * apply IH. apply not_elem_of_nil.
    + rewrite split_from_other by done. apply IH.
      rewrite elem_of_app, list_elem_of_singleton.
      intros [Hin|Heq]; [done|by subst].
Qed.

Lemma concat_push_item it : concat (push_item [] it) = it.
Proof. destruct it; simpl; by rewrite ?app_nil_r. Qed.

Lemma concat_split_from delim s : forall it,
  concat (split_from delim [] it s) = it ++ filter (fun c => c <> delim) s.
Proof.
  induction s as [|ch s IH]; intros it.
  - by rewrite split_from_nil, concat_push_item, filter_nil, app_nil_r.
  - destruct (decide (ch = delim)) as [->|Hne].
    + rewrite split_from_delim, split_from_elems, concat_app,
        concat_push_item, IH.
      by rewrite filter_cons_False by (intros Hd; by apply Hd).
    + rewrite split_from_other, IH by done.
      rewrite filter_cons_True by done. by rewrite <- app_assoc.
Qed.

Lemma split_from_empty_iff delim s : forall it,
  split_from delim [] it s = [] <-> it = [] /\ Forall (fun c => c = delim) s.
Proof.
  induction s as [|ch s IH]; intros it.
  - rewrite split_from_nil. destruct it; simpl; split; try done.
    + by intros [? _].
  - destruct (decide (ch = delim)) as [->|Hne].
    + rewrite split_from_delim, split_from_elems.
      split.
      * intros Hnil. apply app_eq_nil in Hnil as [Hit Hs].
        apply IH in Hs as [_ Hs]. split; [|by constructor].
        by destruct it.
      * intros [-> Hs]. apply Forall_cons in Hs as [_ Hs].
        simpl. apply IH. done.
    + rewrite split_from_other, IH by done. split.
      * intros [Hit _]. by destruct it.
      * intros [_ Hs]. apply Forall_cons in Hs as [? _]. done.
Qed.

Lemma split_no_delim s delim :
  s <> [] -> delim ∉ s -> _split s delim = [s].
Proof.
  intros Hne Hs. rewrite split_eq, split_from_no_delim by done.
  by destruct s.
Qed.

Lemma split_at_delim s1 s2 delim :
  _split (s1 ++ delim :: s2) delim = _split s1 delim ++ _split s2 delim.
Proof. rewrite !split_eq. apply split_from_at_delim. Qed.

(** X1.  Every element [_split] returns is a non-empty string without the
    delimiter, and the elements put end to end are [s] with its delimiters
    taken out: no other character is lost, added or moved. *)
Theorem split_keeps_the_text (s : list ascii) (delim : ascii) :
  Forall (fun f => f <> [] /\ delim ∉ f) (_split s delim) /\
  concat (_split s delim) = filter (fun c => c <> delim) s.
Proof.
  rewrite split_eq. split.
  - apply Forall_field_split_from, not_elem_of_nil.
  - by rewrite concat_split_from.
Qed.

(** X2.  [_split] works field by field: the text on the two sides of a
    delimiter is split independently; hence a delimiter at the front, at
    the end, or next to another one adds no element. *)
Theorem split_at_a_delimiter (s1 s2 : list ascii) (delim : ascii) :
  _split (s1 ++ delim :: s2) delim = _split s1 delim ++ _split s2 delim /\
  _split (delim :: s2) delim = _split s2 delim /\
  _split (s1 ++ [delim]) delim = _split s1 delim /\
  _split (s1 ++ delim :: delim :: s2) delim = _split (s1 ++ delim :: s2) delim.
Proof.
  split; [apply split_at_delim|]. split; [|split].
  - apply (split_at_delim [] s2).
  - rewrite split_at_delim. apply app_nil_r.
  - rewrite !split_at_delim. f_equal. apply (split_at_delim [] s2).
Qed.

(** X3.  Splitting undoes joining: fields that are not empty and hold no
    delimiter, joined with the delimiter between them, are returned as they
    were. *)
Theorem split_join_round_trip (fields : list (list ascii)) (delim : ascii) :
  Forall (fun f => f <> [] /\ delim ∉ f) fields ->
  _split (join_fields delim fields) delim = fields.
Proof.
  induction 1 as [|f fields [Hne Hf] Hfields IH]; [done|].
  destruct fields as [|g fields].
  - by apply split_no_delim.
  - change (join_fields delim (f :: g :: fields))
      with (f ++ delim :: join_fields delim (g :: fields)).
    rewrite split_at_delim, IH, split_no_delim by done. done.
Qed.

Lemma split_join_round_trip_witness :
  let fields := [list_ascii_of_string "ibm_torino";
                 list_ascii_of_string "ibm_kyoto"] in
  let delim := ","%char in
  Forall (fun f => f <> [] /\ delim ∉ f) fields /\
  _split (join_fields delim fields) delim = fields.
Proof.
  intros fields delim.
  assert (Forall (fun f => f <> [] /\ delim ∉ f) fields) as Hfields.
  { repeat constructor; try discriminate;
      intros Hin; repeat (apply elem_of_cons in Hin as [Hin|Hin];
                          [discriminate Hin|]);
      by apply elem_of_nil in Hin. }
  split; [done|]. exact (split_join_round_trip fields delim Hfields).
Defined.

(** X4.  [_split] returns the empty vector exactly for a text made of
    delimiters only, the empty text included; for every other text element
    0 exists. *)
Theorem split_empty_iff (s : list ascii) (delim : ascii) :
  (_split s delim = [] <-> Forall (fun c => c = delim) s) /\
  (~ Forall (fun c => c = delim) s -> is_Some (_split s delim !! 0%nat)).
Proof.
  assert (_split s delim = [] <-> Forall (fun c => c = delim) s) as Hiff.
  { rewrite split_eq, split_from_empty_iff. tauto. }
  split; [done|]. intros Hs.
  destruct (_split s delim) as [|f fs] eqn:Hsplit; [|by eexists].
  exfalso. apply Hs, Hiff. reflexivity.
Qed.

Example split_examples :
  let str := list_ascii_of_string in
  _split (str ",,ibm_torino,,ibm_kyoto,") "," = [str "ibm_torino"; str "ibm_kyoto"] /\
  _split (str "ibm_torino") "," = [str "ibm_torino"] /\
  _split (str ",,,") "," = [] /\
  _split [] "," = [] /\
  _split_traced [] (str "a,b") ","
  = (str "a,b  ," ++ [line_feed], [str "a"; str "b"]).
Proof. by vm_compute. Qed.

(** ** Writing and reading [input.bin] *)

Lemma byte_val_byte_of_Z z : 0 <= z < 2 ^ 8 -> byte_val (byte_of_Z z) = z.
Proof.
  intros Hz. unfold byte_val, byte_of_Z. rewrite Z.mod_small by done.
  destruct (Byte.of_N (Z.to_N z)) as [b|] eqn:Hb.
  - apply Byte.to_of_N in Hb. simpl. rewrite Hb. lia.
  - apply Byte.of_N_None_iff in Hb. change (2 ^ 8) with 256 in Hz. lia.
Qed.

Lemma length_bytes_of_word native v : length (bytes_of_word native v) = 4%nat.
Proof.
  assert (length (byte_of_Z <$> Z_to_little_endian 4 8 v) = 4%nat) as Hle.
  { rewrite length_fmap.
    pose proof (length_Z_to_little_endian 4 8 v). lia. }
  unfold bytes_of_word. destruct native; [done|by rewrite length_reverse].
Qed.

(** The four bytes written for a value hold that value, reduced to 32
    bits. *)
Lemma word_of_bytes_of_word native v :
  word_of_bytes native (bytes_of_word native v) = to_uint32 v.
Proof.
  unfold word_of_bytes, bytes_of_word, to_uint32.
  set (le := Z_to_little_endian 4 8 v).
  assert (byte_val <$> (byte_of_Z <$> le) = le) as Hle.
  { rewrite <- list_fmap_compose. rewrite <- (list_fmap_id le) at 2.
    apply Forall_fmap_ext_1.
    eapply Forall_impl; [apply (Z_to_little_endian_bound 4 8 v); lia|].
    intros z Hz. simpl. by apply byte_val_byte_of_Z. }
  replace (match native with
           | LittleEndian =>
               match native with
               | LittleEndian => byte_of_Z <$> le
               | BigEndian => reverse (byte_of_Z <$> le)
               end
           | BigEndian =>
               reverse match native with
                       | LittleEndian => byte_of_Z <$> le
                       | BigEndian => reverse (byte_of_Z <$> le)
                       end
           end) with (byte_of_Z <$> le)
    by (destruct native; by rewrite ?reverse_involutive).
  rewrite Hle. unfold le.
  by rewrite little_endian_to_Z_to_little_endian by lia.
Qed.

Lemma load_words_app native w rest :
  length w = 4%nat ->
  load_words native (w ++ rest)
  = word_of_bytes native w :: load_words native rest.
Proof.
  intros Hlen.
  destruct w as [|b0 [|b1 [|b2 [|b3 [|b4 w]]]]]; simpl in Hlen; try lia.
  reflexivity.
Qed.

Lemma load_words_store_words native data :
  load_words native (store_words native data) = to_uint32 <$> data.
Proof.
  unfold store_words. induction data as [|v data IH]; [done|].
  rewrite !fmap_cons. simpl concat.
  rewrite load_words_app by apply length_bytes_of_word.
  by rewrite word_of_bytes_of_word, IH.
Qed.

Lemma length_store_words native data :
  length (store_words native data) = (4 * length data)%nat.
Proof.
  unfold store_words. induction data as [|v data IH]; [done|].
  rewrite fmap_cons. simpl concat.
  rewrite length_app, length_bytes_of_word, IH. simpl length. lia.
Qed.

Lemma to_uint32_id v : uint32 v -> to_uint32 v = v.
Proof.
  unfold uint32, UINT32_MAX, to_uint32. intros Hv. apply Z.mod_small. lia.
Qed.

Lemma fmap_to_uint32_id data : Forall uint32 data -> to_uint32 <$> data = data.
Proof.
  induction 1 as [|v data Hv _ IH]; [done|].
  by rewrite fmap_cons, IH, to_uint32_id.
Qed.

Lemma count_of_size_words (n : nat) :
  Z.of_nat n <= UINT32_MAX -> count_of_size (Z.of_nat (4 * n)) = Z.of_nat n.
Proof.
  intros Hn. unfold UINT32_MAX in Hn.
  rewrite count_of_size_exact by lia.
  replace (Z.of_nat (4 * n)) with (Z.of_nat n * 4) by lia.
  rewrite Z.div_mul by lia. apply Z.mod_small. lia.
Qed.

Lemma Binary_Reader_store_words native data :
  Forall uint32 data -> Z.of_nat (length data) <= UINT32_MAX ->
  Binary_Reader native (Some (store_words native data))
  = (Z.of_nat (length data), data).
Proof.
  intros Hdata Hlen.
  rewrite Binary_Reader_readable, length_store_words.
  rewrite count_of_size_words by done.
  rewrite take_ge by (rewrite length_store_words; unfold sizeof_uint32; lia).
  by rewrite load_words_store_words, fmap_to_uint32_id.
Qed.

(** X5.  What [sampler_test.cpp] writes to [input.bin] is what
    [get_counts.cpp] reads back: for samples that are [uint32_t] values,
    at most [2^32 - 1] of them, written and read on machines of one byte
    order, the reader returns their number and the very samples, in order;
    the file has four bytes per sample. *)
Theorem input_bin_round_trip (native : byte_order) (data : list Z) :
  Forall uint32 data -> Z.of_nat (length data) <= UINT32_MAX ->
  length (store_words native data) = (4 * length data)%nat /\
  load_words native (store_words native data) = data /\
  Binary_Reader native (Some (store_words native data))
  = (Z.of_nat (length data), data).
Proof.
  intros Hdata Hlen. split; [apply length_store_words|].
  split; [|by apply Binary_Reader_store_words].
  by rewrite load_words_store_words, fmap_to_uint32_id.
Qed.

Lemma input_bin_round_trip_witness :
  let native := BigEndian in
  let data := [7; 1023; 4294967295; 0] in
  (Forall uint32 data /\ Z.of_nat (length data) <= UINT32_MAX) /\
  length (store_words native data) = (4 * length data)%nat /\
  load_words native (store_words native data) = data /\
  Binary_Reader native (Some (store_words native data))
  = (Z.of_nat (length data), data).
Proof.
  intros native data.
  assert (Forall uint32 data) as Hdata
    by (repeat constructor; vm_compute; congruence).
  assert (Z.of_nat (length data) <= UINT32_MAX) as Hlen
    by (vm_compute; congruence).
  split; [done|]. exact (input_bin_round_trip native data Hdata Hlen).
Defined.

(** A file written on a machine of one byte order and read on a machine of
    the other gives other samples. *)
Example byte_order_matters :
  store_words LittleEndian [7] = [Byte.x07; Byte.x00; Byte.x00; Byte.x00] /\
  store_words BigEndian [7] = [Byte.x00; Byte.x00; Byte.x00; Byte.x07] /\
  load_words BigEndian (store_words LittleEndian [7]) = [117440512].
Proof. by vm_compute. Qed.

(** ** Bit strings *)

(** Decides that explicit texts are made of binary digits. *)
Ltac solve_bit_strings :=
  vm_compute;
  repeat match goal with
    | |- Forall _ _ => constructor
    | |- _ /\ _ => split
    | |- _ \/ _ => first [left; reflexivity | right; reflexivity]
    | |- _ = _ => reflexivity
    end.

Lemma bit_tests c :
  c = "0"%char \/ c = "1"%char ->
  binary_digit c = true /\ isspace c = false /\
  Ascii.eqb c "-" = false /\ Ascii.eqb c "+" = false.
Proof. by intros [-> | ->]. Qed.

Lemma leading_digits_bit_string b : bit_string b -> leading_digits b = b.
Proof.
  induction 1 as [|c b Hc _ IH]; [done|].
  simpl. destruct (bit_tests c Hc) as (-> & _). by rewrite IH.
Qed.

(** Every digit doubles the value and adds at most one. *)
Lemma binary_value_range digits : forall acc,
  acc * 2 ^ Z.of_nat (length digits) <= binary_value acc digits
  /\ binary_value acc digits < (acc + 1) * 2 ^ Z.of_nat (length digits).
Proof.
  induction digits as [|c digits IH]; intros acc.
  - simpl. lia.
  - change (binary_value acc (c :: digits))
      with (binary_value (2 * acc + (if Ascii.eqb c "1" then 1 else 0)) digits).
    specialize (IH (2 * acc + (if Ascii.eqb c "1" then 1 else 0))).
    rewrite length_cons, Nat2Z.inj_succ, Z.pow_succ_r by lia.
    destruct (Ascii.eqb c "1"); nia.
Qed.

Lemma binary_value_bound digits :
  0 <= binary_value 0 digits < 2 ^ Z.of_nat (length digits).
Proof. pose proof (binary_value_range digits 0). lia. Qed.

Lemma stoul_base2_bit_string c b :
  bit_string (c :: b) ->
  stoul_base2 (c :: b)
  = if ULONG_MAX <? binary_value 0 (c :: b) then inl std_out_of_range
    else inr (binary_value 0 (c :: b)).
Proof.
  intros Hb. pose proof (leading_digits_bit_string _ Hb) as Hdigits.
  apply Forall_cons in Hb as [Hc _].
  destruct (bit_tests c Hc) as (Hdigit & Hspace & Hminus & Hplus).
  unfold stoul_base2.
  change (skip_spaces (c :: b))
    with (if isspace c then skip_spaces b else c :: b).
  rewrite Hspace, Hminus, Hplus, Hdigits. reflexivity.
Qed.

(** X6.  On a text of binary digits [std::stoul(b, nullptr, 2)] throws
    [std::invalid_argument] when the text is empty, throws
    [std::out_of_range] when the number exceeds [ULONG_MAX], and otherwise
    returns the number the digits spell, most significant first, which is
    below [2^length]; up to 64 digits it never throws. *)
Theorem stoul_on_bit_strings (b : list ascii) :
  bit_string b ->
  stoul_base2 b
  = match b with
    | [] => inl std_invalid_argument
    | _ :: _ =>
        if ULONG_MAX <? binary_value 0 b then inl std_out_of_range
        else inr (binary_value 0 b)
    end /\
  0 <= binary_value 0 b < 2 ^ Z.of_nat (length b) /\
  (b <> [] -> (length b <= 64)%nat -> stoul_base2 b = inr (binary_value 0 b)).
Proof.
  intros Hb. split; [|split].
  - destruct b as [|c b]; [done|]. by apply stoul_base2_bit_string.
  - apply binary_value_bound.
  - intros Hne Hlen. destruct b as [|c b]; [done|].
    rewrite stoul_base2_bit_string by done.
    pose proof (binary_value_bound (c :: b)) as Hv.
    assert (2 ^ Z.of_nat (length (c :: b)) <= 2 ^ 64) as Hpow
      by (apply Z.pow_le_mono_r; lia).
    unfold ULONG_MAX.
    destruct (Z.ltb_spec (2 ^ 64 - 1) (binary_value 0 (c :: b))); [lia|done].
Qed.

Lemma stoul_on_bit_strings_witness :
  let b := list_ascii_of_string "1111111111" in
  bit_string b /\
  stoul_base2 b
  = match b with
    | [] => inl std_invalid_argument
    | _ :: _ =>
        if ULONG_MAX <? binary_value 0 b then inl std_out_of_range
        else inr (binary_value 0 b)
    end /\
  0 <= binary_value 0 b < 2 ^ Z.of_nat (length b) /\
  (b <> [] -> (length b <= 64)%nat -> stoul_base2 b = inr (binary_value 0 b)).
Proof.
  intros b.
  assert (bit_string b) as Hb by (repeat constructor; by right).
  split; [done|]. exact (stoul_on_bit_strings b Hb).
Defined.

Example stoul_examples :
  let str := list_ascii_of_string in
  stoul_base2 (str "0000000101") = inr 5 /\
  stoul_base2 (str "1111111111") = inr 1023 /\
  stoul_base2 (str "") = inl std_invalid_argument /\
  stoul_base2 (str "2") = inl std_invalid_argument /\
  stoul_base2 (str " +101x") = inr 5 /\
  stoul_base2 (str "-1") = inr ULONG_MAX /\
  stoul_base2 (replicate 65 "1"%char) = inl std_out_of_range /\
  push_values [str "0000000101"; str ""; str "1111111111"] []
  = inl std_invalid_argument.
Proof. by vm_compute. Qed.

Lemma push_values_bit_strings bits : forall data,
  Forall (fun b => bit_string b /\ b <> [] /\ (length b <= 32)%nat) bits ->
  push_values bits data = inr (data ++ (binary_value 0 <$> bits)).
Proof.
  induction bits as [|b bits IH]; intros data Hbits.
  - simpl. by rewrite app_nil_r.
  - apply Forall_cons in Hbits as [(Hb & Hne & Hlen) Hbits].
    destruct b as [|c b]; [done|].
    simpl push_values. rewrite stoul_base2_bit_string by done.
    pose proof (binary_value_bound (c :: b)) as Hv.
    assert (2 ^ Z.of_nat (length (c :: b)) <= 2 ^ 32) as Hpow
      by (apply Z.pow_le_mono_r; lia).
    unfold ULONG_MAX.
    destruct (Z.ltb_spec (2 ^ 64 - 1) (binary_value 0 (c :: b))); [lia|].
    rewrite IH by done. rewrite fmap_cons, <- app_assoc.
    unfold to_uint32. rewrite Z.mod_small by lia. done.
Qed.

(** What the loop pushes: one [uint32_t] for every bit string read. *)
Lemma push_values_inv bits : forall data data',
  push_values bits data = inr data' ->
  Forall uint32 data ->
  Forall uint32 data' /\ length data' = (length data + length bits)%nat.
Proof.
  induction bits as [|b bits IH]; intros data data' Hpush Hdata.
  - injection Hpush as <-. split; [done|]. simpl. lia.
  - simpl in Hpush. destruct (stoul_base2 b) as [e|v]; [done|].
    apply IH in Hpush as [Hdata' Hlen].
    + split; [done|]. rewrite Hlen, length_app. simpl. lia.
    + apply Forall_app. split; [done|]. repeat constructor.
      * apply Z.mod_pos_bound. lia.
      * unfold UINT32_MAX, to_uint32.
        pose proof (Z.mod_pos_bound v (2 ^ 32)). lia.
Qed.

Lemma in_range_count_all data :
  Forall (fun v => v < MAXVAL) data ->
  in_range_count data = Z.of_nat (length data).
Proof.
  induction 1 as [|v data Hv _ IH]; [done|].
  simpl in_range_count. rewrite length_cons, IH.
  destruct (Z.ltb_spec v MAXVAL); lia.
Qed.

Lemma push_values_of_width bits :
  Forall (fun b => bit_string b /\ Z.of_nat (length b) = BITLEN) bits ->
  push_values bits [] = inr (binary_value 0 <$> bits) /\
  Forall (fun v => 0 <= v < MAXVAL) (binary_value 0 <$> bits) /\
  in_range_count (binary_value 0 <$> bits) = Z.of_nat (length bits).
Proof.
  intros Hbits. unfold BITLEN in Hbits.
  assert (Forall (fun v => 0 <= v < MAXVAL) (binary_value 0 <$> bits)) as Hrange.
  { apply Forall_fmap. eapply Forall_impl; [exact Hbits|].
    intros b [_ Hlen]. simpl.
    pose proof (binary_value_bound b) as Hv. rewrite Hlen in Hv.
    by rewrite MAXVAL_eq. }
  split; [|split; [done|]].
  - rewrite push_values_bit_strings; [done|].
    eapply Forall_impl; [exact Hbits|].
    intros b [Hb Hlen]. split; [done|]. split; [|lia].
    intros ->. simpl in Hlen. lia.
  - rewrite in_range_count_all, length_fmap; [done|].
    eapply Forall_impl; [exact Hrange|]. by intros v [_ Hv].
Qed.

(** X7.  When every bit string the sampler returns has exactly [BITLEN]
    binary digits, the loop converts all of them without an exception, in
    order, and every sample is below [MAXVAL]: the histogram discards
    none. *)
Theorem samples_in_range (bits : list (list ascii)) :
  Forall (fun b => bit_string b /\ Z.of_nat (length b) = BITLEN) bits ->
  push_values bits [] = inr (binary_value 0 <$> bits) /\
  Forall (fun v => 0 <= v < MAXVAL) (binary_value 0 <$> bits) /\
  in_range_count (binary_value 0 <$> bits) = Z.of_nat (length bits).
Proof. apply push_values_of_width. Qed.

Lemma samples_in_range_witness :
  let bits := [list_ascii_of_string "0000000111";
               list_ascii_of_string "1111111111"] in
  Forall (fun b => bit_string b /\ Z.of_nat (length b) = BITLEN) bits /\
  push_values bits [] = inr (binary_value 0 <$> bits) /\
  Forall (fun v => 0 <= v < MAXVAL) (binary_value 0 <$> bits) /\
  in_range_count (binary_value 0 <$> bits) = Z.of_nat (length bits).
Proof.
  intros bits.
  assert (Forall (fun b => bit_string b /\ Z.of_nat (length b) = BITLEN) bits)
    as Hbits.
  { solve_bit_strings. }
  split; [done|]. exact (samples_in_range bits Hbits).
Defined.

(** ** The job of [sampler_test.cpp] *)

(** X8.  [get_counts.cpp] reproduces [sampler_test.cpp]: when a run of
    [sampler_test.cpp] returns 0 (the sampler having measured at most
    [2^32 - 1] bit strings), a run of [get_counts.cpp] on as many ranks
    over the files it left reads the samples back from [input.bin] and
    writes the same [output.json]. *)
Theorem get_counts_reproduces_sampler_test
    (run_sampler : list ascii -> option (list (list ascii)))
    (arrival : list nat) (native : byte_order) (size : Z)
    (env : option (list ascii)) (fs fs' : files) :
  (forall name bits, run_sampler name = Some bits ->
                     Z.of_nat (length bits) <= UINT32_MAX) ->
  Permutation arrival (rank_order size) ->
  sampler_test_main run_sampler arrival native size env fs = Returned 0 fs' ->
  main native size fs' = (0, fs').
Proof.
  intros Hshots Hp Hrun. unfold sampler_test_main in Hrun.
  destruct env as [resources|]; [|done].
  destruct (_split resources ",") as [|name others]; [done|].
  destruct (run_sampler name) as [bits|] eqn:Hbits; [|done].
  destruct (push_values bits []) as [e|data] eqn:Hpush; [done|].
  injection Hrun as <-.
  apply push_values_inv in Hpush as [Hdata Hlen]; [|constructor].
  apply Hshots in Hbits. simpl in Hlen.
  unfold main. rewrite main_by_unfold. simpl input_bin.
  rewrite Binary_Reader_store_words by (done || lia).
  simpl fst. simpl snd.
  rewrite (global_histogram_by_arrival _ arrival) by (done || reflexivity).
  rewrite Hlen, (to_uint32_id (Z.of_nat (length bits))); [done|].
  unfold uint32. lia.
Qed.

Lemma get_counts_reproduces_sampler_test_witness :
  let str := list_ascii_of_string in
  let run_sampler := fun _ : list ascii =>
    Some [str "0000000111"; str "1111111111"; str "0000000111"; str "1"] in
  let arrival := [1; 0]%nat in
  let native := LittleEndian in
  let size := 2 in
  let env := Some (str "ibm_torino,ibm_kyoto") in
  let fs := mk_files None None in
  let fs' :=
    mk_files (Some (store_words native [7; 1023; 7; 1]))
      (Some ("{" +:+ dquote +:+ "1" +:+ dquote +:+ ":1,"
                 +:+ dquote +:+ "7" +:+ dquote +:+ ":2,"
                 +:+ dquote +:+ "1023" +:+ dquote +:+ ":1}" +:+ newline)) in
  ((forall name bits, run_sampler name = Some bits ->
                      Z.of_nat (length bits) <= UINT32_MAX) /\
   Permutation arrival (rank_order size) /\
   sampler_test_main run_sampler arrival native size env fs = Returned 0 fs') /\
  main native size fs' = (0, fs').
Proof.
  intros str run_sampler arrival native size env fs fs'.
  assert (forall name bits, run_sampler name = Some bits ->
                            Z.of_nat (length bits) <= UINT32_MAX) as Hshots.
  { intros name bits [= <-]. vm_compute. congruence. }
  assert (Permutation arrival (rank_order size)) as Hp by apply perm_swap.
  assert (sampler_test_main run_sampler arrival native size env fs
          = Returned 0 fs') as Hrun by (vm_compute; reflexivity).
  split; [exact (conj Hshots (conj Hp Hrun))|].
  exact (get_counts_reproduces_sampler_test run_sampler arrival native size
           env fs fs' Hshots Hp Hrun).
Defined.

(** X10.  Every shot is counted: when the sampler returns bit strings of
    exactly [BITLEN] binary digits, at most [INT_MAX] of them, and the
    number of ranks divides their number, [sampler_test.cpp] returns 0,
    writes the samples to [input.bin] and writes to [output.json] the
    object of a histogram whose counts add up to the number of bit
    strings. *)
Theorem every_shot_is_counted
    (run_sampler : list ascii -> option (list (list ascii)))
    (native : byte_order) (size : Z) (resources name : list ascii)
    (bits : list (list ascii)) (fs : files) :
  _split resources "," !! 0%nat = Some name ->
  run_sampler name = Some bits ->
  Forall (fun b => bit_string b /\ Z.of_nat (length b) = BITLEN) bits ->
  Z.of_nat (length bits) <= INT_MAX ->
  0 < size <= INT_MAX -> (size | Z.of_nat (length bits)) ->
  let data := binary_value 0 <$> bits in
  let es := positive_buckets (local_histogram data) in
  sampler_test_main run_sampler (rank_order size) native size
    (Some resources) fs
  = Returned 0 (mk_files (Some (store_words native data))
                         (Some (json_object es +:+ newline))) /\
  sumZ (es.*2) = Z.of_nat (length bits).
Proof.
  intros Hname Hrun Hbits Hmax Hsize Hdiv data es.
  destruct (push_values_of_width bits Hbits) as (Hpush & Hrange & Hcount).
  fold data in Hpush, Hrange, Hcount.
  assert (Forall uint32 data) as Hdata.
  { eapply Forall_impl; [exact Hrange|]. intros v Hv. simpl in Hv.
    rewrite MAXVAL_eq in Hv. unfold uint32, UINT32_MAX. lia. }
  assert (length data = length bits) as Hlen by apply length_fmap.
  assert (Z.of_nat (length data) <= UINT32_MAX) as Hfit
    by (unfold INT_MAX, UINT32_MAX in *; lia).
  split.
  - unfold sampler_test_main.
    destruct (_split resources ",") as [|name' others]; [done|].
    injection Hname as ->. rewrite Hrun, Hpush.
    do 3 f_equal.
    rewrite to_uint32_id by (unfold uint32; lia).
    rewrite <- Hlen. fold (global_histogram data size).
    rewrite global_histogram_direct;
      [|done|done|done|
       pose proof (count_per_rank_le (Z.of_nat (length data)) size); lia].
    rewrite <- divide_exact by (rewrite ?Hlen; done || lia).
    rewrite Nat2Z.id, take_ge by done.
    apply Sparse_JSON_Emitter_positive_buckets.
  - unfold es. rewrite sum_positive_buckets_local_histogram; [done|done|].
    apply no_overflow_short. lia.
Qed.

Lemma every_shot_is_counted_witness :
  let str := list_ascii_of_string in
  let bits := [str "0000000111"; str "1111111111";
               str "0000000111"; str "0000000000"] in
  let run_sampler := fun _ : list ascii => Some bits in
  let native := LittleEndian in
  let size := 2 in
  let resources := str "ibm_torino" in
  let name := str "ibm_torino" in
  let fs := mk_files None None in
  (_split resources "," !! 0%nat = Some name /\
   run_sampler name = Some bits /\
   Forall (fun b => bit_string b /\ Z.of_nat (length b) = BITLEN) bits /\
   Z.of_nat (length bits) <= INT_MAX /\
   0 < size <= INT_MAX /\ (size | Z.of_nat (length bits))) /\
  let data := binary_value 0 <$> bits in
  let es := positive_buckets (local_histogram data) in
  sampler_test_main run_sampler (rank_order size) native size
    (Some resources) fs
  = Returned 0 (mk_files (Some (store_words native data))
                         (Some (json_object es +:+ newline))) /\
  sumZ (es.*2) = Z.of_nat (length bits).
Proof.
  intros str bits run_sampler native size resources name fs.
  assert (_split resources "," !! 0%nat = Some name) as Hname
    by (vm_compute; reflexivity).
  assert (run_sampler name = Some bits) as Hrun by reflexivity.
  assert (Forall (fun b => bit_string b /\ Z.of_nat (length b) = BITLEN) bits)
    as Hbits by solve_bit_strings.
  assert (Z.of_nat (length bits) <= INT_MAX) as Hmax
    by (vm_compute; congruence).
  assert (0 < size <= INT_MAX) as Hsize by (split; vm_compute; congruence).
  assert (size | Z.of_nat (length bits)) as Hdiv by (exists 2; reflexivity).
  split; [exact (conj Hname (conj Hrun (conj Hbits (conj Hmax (conj Hsize Hdiv)))))|].
  exact (every_shot_is_counted run_sampler native size resources name bits fs
           Hname Hrun Hbits Hmax Hsize Hdiv).
Defined.

(** * More on [get_counts.cpp] *)

(** X11.  The number of ranks does not show in the result: two worker
    counts that both divide the element count, and both leave each rank a
    count that fits the [int] of [MPI_Scatter], leave the same files. *)
Theorem output_independent_of_rank_count (native : byte_order)
    (size1 size2 : Z) (fs : files) :
  0 < size1 <= INT_MAX -> 0 < size2 <= INT_MAX ->
  (size1 | (Binary_Reader native (input_bin fs)).1) ->
  (size2 | (Binary_Reader native (input_bin fs)).1) ->
  (Binary_Reader native (input_bin fs)).1 / size1 <= INT_MAX ->
  (Binary_Reader native (input_bin fs)).1 / size2 <= INT_MAX ->
  main native size1 fs = main native size2 fs.
Proof.
  intros Hsize1 Hsize2 Hdiv1 Hdiv2 Hcount1 Hcount2.
  unfold main. rewrite !main_by_unfold.
  destruct (Binary_Reader_spec native (input_bin fs))
    as (N & data & Hread & HN & Hlen & Hdata).
  rewrite Hread in *. simpl fst in *. simpl snd.
  rewrite !global_histogram_by_direct by (done || lia).
  rewrite !to_int_local_n by (rewrite local_n_of_div; lia).
  rewrite !local_n_of_div by lia.
  by rewrite !divide_blocks by (done || lia).
Qed.

Lemma output_independent_of_rank_count_witness :
  let native := LittleEndian in
  let size1 := 2 in
  let size2 := 3 in
  let fs := mk_files (Some (store_words native [7; 7; 1023; 5000; 7; 0])) None in
  (0 < size1 <= INT_MAX /\ 0 < size2 <= INT_MAX /\
   (size1 | (Binary_Reader native (input_bin fs)).1) /\
   (size2 | (Binary_Reader native (input_bin fs)).1) /\
   (Binary_Reader native (input_bin fs)).1 / size1 <= INT_MAX /\
   (Binary_Reader native (input_bin fs)).1 / size2 <= INT_MAX) /\
  main native size1 fs = main native size2 fs.
Proof.
  intros native size1 size2 fs.
  assert (0 < size1 <= INT_MAX) as Hsize1 by (split; vm_compute; congruence).
  assert (0 < size2 <= INT_MAX) as Hsize2 by (split; vm_compute; congruence).
  assert (size1 | (Binary_Reader native (input_bin fs)).1) as Hdiv1
    by (exists 3; reflexivity).
  assert (size2 | (Binary_Reader native (input_bin fs)).1) as Hdiv2
    by (exists 2; reflexivity).
  assert ((Binary_Reader native (input_bin fs)).1 / size1 <= INT_MAX)
    as Hcount1 by (vm_compute; congruence).
  assert ((Binary_Reader native (input_bin fs)).1 / size2 <= INT_MAX)
    as Hcount2 by (vm_compute; congruence).
  split.
  { exact (conj Hsize1 (conj Hsize2 (conj Hdiv1 (conj Hdiv2
             (conj Hcount1 Hcount2))))). }
  exact (output_independent_of_rank_count native size1 size2 fs
           Hsize1 Hsize2 Hdiv1 Hdiv2 Hcount1 Hcount2).
Defined.

(** Worker counts that do not divide the element count drop tails of
    different sizes and may disagree. *)
Example rank_count_matters :
  global_histogram [1; 2; 3; 4; 5; 6; 7; 8; 9; 9] 3 !! 9%nat = Some 1 /\
  global_histogram [1; 2; 3; 4; 5; 6; 7; 8; 9; 9] 4 !! 9%nat = Some 0.
Proof. by vm_compute. Qed.

(** X12.  The order of the samples does not show in the histogram: when
    the worker count divides the element count, two sample streams that
    are permutations of one another give the same global histogram. *)
Theorem histogram_ignores_sample_order (data data' : list Z) (size : Z) :
  Permutation data data' ->
  Forall uint32 data -> Z.of_nat (length data) <= UINT32_MAX ->
  0 < size <= INT_MAX -> (size | Z.of_nat (length data)) ->
  global_histogram data size = global_histogram data' size.
Proof.
  intros Hp Hdata Hlen Hsize Hdiv.
  assert (Forall uint32 data') as Hdata' by by rewrite <- Hp.
  assert (length data' = length data) as Hlen'
    by (symmetry; by apply Permutation_length).
  destruct (Z_le_gt_dec (Z.of_nat (length data) / size) INT_MAX)
    as [Hcount|Hcount].
  - rewrite !global_histogram_direct by (rewrite ?Hlen'; done).
    rewrite Hlen', <- divide_exact by (done || lia).
    rewrite Nat2Z.id, !take_ge by lia.
    apply local_histogram_ext; [done|done|].
    intros b _. by apply occurrences_Permutation.
  - unfold global_histogram. rewrite Hlen'.
    rewrite !global_histogram_by_direct by (done || lia).
    assert (Z.to_nat (to_int (local_n_of (Z.of_nat (length data)) size))
            = 0%nat) as ->; [|by rewrite Nat.mul_0_r, !take_0].
    rewrite local_n_of_div by lia.
    pose proof (count_per_rank_le (Z.of_nat (length data)) size).
    rewrite to_int_wraps by lia. unfold UINT32_MAX in *. lia.
Qed.

Lemma histogram_ignores_sample_order_witness :
  let data := [7; 1023; 5000; 7] in
  let data' := [1023; 7; 7; 5000] in
  let size := 2 in
  (Permutation data data' /\
   Forall uint32 data /\ Z.of_nat (length data) <= UINT32_MAX /\
   0 < size <= INT_MAX /\ (size | Z.of_nat (length data))) /\
  global_histogram data size = global_histogram data' size.
Proof.
  intros data data' size.
  assert (Permutation data data') as Hp.
  { apply (perm_trans (l' := [1023; 7; 5000; 7])); [apply perm_swap|].
    do 2 apply perm_skip. apply perm_swap. }
  assert (Forall uint32 data) as Hdata
    by (repeat constructor; vm_compute; congruence).
  assert (Z.of_nat (length data) <= UINT32_MAX) as Hlen
    by (vm_compute; congruence).
  assert (0 < size <= INT_MAX) as Hsize by (split; vm_compute; congruence).
  assert (size | Z.of_nat (length data)) as Hdiv by (exists 2; reflexivity).
  split; [exact (conj Hp (conj Hdata (conj Hlen (conj Hsize Hdiv))))|].
  exact (histogram_ignores_sample_order data data' size
           Hp Hdata Hlen Hsize Hdiv).
Defined.

(** Without divisibility the order decides which samples fall into the
    dropped tail. *)
Example sample_order_matters :
  global_histogram [7; 7; 8] 2 !! 8%nat = Some 0 /\
  global_histogram [8; 7; 7] 2 !! 8%nat = Some 1.
Proof. by vm_compute. Qed.

(** ** The output determines the histogram *)

(** Two numbers printed in front of texts that end them: equal outputs
    mean equal printed numbers and equal rests. *)
Lemma string_app_nil_l s : EmptyString +:+ s = s.
Proof. reflexivity. Qed.

Lemma number_then_rest (a b s t : string) :
  all_chars digit_or_minus a -> all_chars digit_or_minus b ->
  ends_number s -> ends_number t ->
  a +:+ s = b +:+ t -> a = b /\ s = t.
Proof.
  revert b. induction a as [|c a IH]; intros b Ha Hb Hs Ht Heq.
  - rewrite string_app_nil_l in Heq. destruct b as [|d b]; [done|].
    rewrite string_app_cons in Heq. subst s.
    simpl in Hs. by destruct Hb as [Hd _].
  - destruct b as [|d b].
    + rewrite string_app_cons, string_app_nil_l in Heq. subst t.
      simpl in Ht. by destruct Ha as [Hc _].
    + rewrite !string_app_cons in Heq. injection Heq as -> Heq.
      destruct Ha as [_ Ha], Hb as [_ Hb].
      destruct (IH b Ha Hb Hs Ht Heq) as [-> ->]. done.
Qed.

Lemma pretty_then_rest (x y : Z) (s t : string) :
  ends_number s -> ends_number t ->
  pretty x +:+ s = pretty y +:+ t -> x = y /\ s = t.
Proof.
  intros Hs Ht Heq.
  destruct (number_then_rest _ _ _ _ (all_chars_pretty_Z x)
              (all_chars_pretty_Z y) Hs Ht Heq) as [Hxy Hst].
  split; [|done]. by apply (inj pretty).
Qed.

Lemma json_entry_app e s :
  json_entry e +:+ s
  = dquote +:+ pretty e.1 +:+ dquote +:+ ":" +:+ pretty e.2 +:+ s.
Proof. unfold json_entry. by rewrite !string_app_assoc. Qed.

Lemma ends_number_dquote s : ends_number (dquote +:+ s).
Proof. simpl. intros [H|H]; vm_compute in H; lia. Qed.

Lemma json_entry_then_rest e1 e2 s t :
  ends_number s -> ends_number t ->
  json_entry e1 +:+ s = json_entry e2 +:+ t -> e1 = e2 /\ s = t.
Proof.
  intros Hs Ht Heq. rewrite !json_entry_app in Heq.
  destruct e1 as [i1 c1], e2 as [i2 c2]. simpl fst in Heq. simpl snd in Heq.
  injection Heq as Heq.
  apply pretty_then_rest in Heq as [-> Heq]; try apply ends_number_dquote.
  injection Heq as Heq.
  apply pretty_then_rest in Heq as [-> ->]; done.
Qed.

(** The entries after the first, each behind its comma, and then [s]. *)
Lemma concat_entries_cons e es s :
  String.concat "," (json_entry <$> e :: es) +:+ s
  = json_entry e +:+
    match es with
    | [] => s
    | _ :: _ => "," +:+ String.concat "," (json_entry <$> es) +:+ s
    end.
Proof.
  destruct es as [|e' es]; [done|].
  rewrite !fmap_cons.
  change (String.concat "," (json_entry e :: json_entry e' :: (json_entry <$> es)))
    with (json_entry e +:+ "," +:+
          String.concat "," (json_entry e' :: (json_entry <$> es))).
  by rewrite !string_app_assoc.
Qed.

Lemma concat_entries_inj es1 : forall es2 s t,
  String.concat "," (json_entry <$> es1) +:+ "}" +:+ s
  = String.concat "," (json_entry <$> es2) +:+ "}" +:+ t ->
  es1 = es2.
Proof.
  assert (forall s, ends_number ("}" +:+ s)) as Hbrace.
  { intros s. simpl. intros [H|H]; vm_compute in H; lia. }
  assert (forall s, ends_number ("," +:+ s)) as Hcomma.
  { intros s. simpl. intros [H|H]; vm_compute in H; lia. }
  assert (forall es s, ends_number
            match es with
            | [] => "}" +:+ s
            | _ :: _ => "," +:+ String.concat "," (json_entry <$> es) +:+ "}" +:+ s
            end) as Hrest.
  { intros [|e es] s; [apply Hbrace|apply Hcomma]. }
  induction es1 as [|e1 es1 IH]; intros es2 s t Heq.
  - destruct es2 as [|e2 es2]; [done|].
    rewrite concat_entries_cons, json_entry_app in Heq. discriminate Heq.
  - destruct es2 as [|e2 es2].
    + rewrite concat_entries_cons, json_entry_app in Heq. discriminate Heq.
    + rewrite !concat_entries_cons in Heq.
      apply json_entry_then_rest in Heq as [-> Heq]; [|apply Hrest..].
      f_equal. destruct es1 as [|e1' es1], es2 as [|e2' es2]; try done;
        rewrite ?(string_app_cons ","), ?(string_app_cons "}"),
          ?string_app_nil_l in Heq.
      injection Heq as Heq. by apply (IH _ s t).
Qed.

Lemma json_object_inj es1 es2 :
  json_object es1 +:+ newline = json_object es2 +:+ newline -> es1 = es2.
Proof.
  unfold json_object. rewrite !string_app_assoc. intros Heq.
  injection Heq as Heq. by apply concat_entries_inj in Heq.
Qed.

(** X13.  Nothing of the histogram is lost in [output.json]: two global
    histograms for which the emitter writes the same text have the same
    positive counters in the same buckets, and are equal when none of their
    counters is negative. *)
Theorem output_determines_histogram (h1 h2 : list Z) :
  length h1 = Z.to_nat MAXVAL -> length h2 = Z.to_nat MAXVAL ->
  Sparse_JSON_Emitter h1 = Sparse_JSON_Emitter h2 ->
  positive_buckets h1 = positive_buckets h2 /\
  (Forall (fun c => 0 <= c) h1 -> Forall (fun c => 0 <= c) h2 -> h1 = h2).
Proof.
  intros Hlen1 Hlen2 Heq.
  rewrite !Sparse_JSON_Emitter_positive_buckets in Heq.
  apply json_object_inj in Heq. split; [done|].
  intros Hpos1 Hpos2. apply list_eq. intros i.
  destruct (decide (i < Z.to_nat MAXVAL)%nat) as [Hi|Hi].
  2:{ rewrite !(proj2 (lookup_ge_None _ _)) by lia. done. }
  destruct (lookup_lt_is_Some_2 h1 i) as [c1 Hc1]; [lia|].
  destruct (lookup_lt_is_Some_2 h2 i) as [c2 Hc2]; [lia|].
  rewrite Hc1, Hc2. f_equal.
  assert (0 <= c1) as Hc1pos by by eapply Forall_lookup in Hpos1.
  assert (0 <= c2) as Hc2pos by by eapply Forall_lookup in Hpos2.
  assert (0 <= Z.of_nat i < MAXVAL) as Hrange by (rewrite MAXVAL_eq in *; lia).
  destruct (decide (0 < c1)) as [Hpos|Hzero].
  - assert ((Z.of_nat i, c1) ∈ positive_buckets h2) as Hin.
    { rewrite <- Heq. apply elem_of_positive_buckets; [done|].
      by rewrite Nat2Z.id. }
    apply elem_of_positive_buckets in Hin as (_ & Hin & _); [|done].
    rewrite Nat2Z.id, Hc2 in Hin. by injection Hin.
  - destruct (decide (0 < c2)) as [Hpos|Hzero2]; [|lia].
    assert ((Z.of_nat i, c2) ∈ positive_buckets h1) as Hin.
    { rewrite Heq. apply elem_of_positive_buckets; [done|].
      by rewrite Nat2Z.id. }
    apply elem_of_positive_buckets in Hin as (_ & Hin & _); [|done].
    rewrite Nat2Z.id, Hc1 in Hin. by injection Hin.
Qed.

Lemma output_determines_histogram_witness :
  let h1 := <[7%nat := 4]> (replicate 1024 0) in
  let h2 := local_histogram [7; 7; 5000; 7; 7] in
  (length h1 = Z.to_nat MAXVAL /\ length h2 = Z.to_nat MAXVAL /\
   Sparse_JSON_Emitter h1 = Sparse_JSON_Emitter h2) /\
  positive_buckets h1 = positive_buckets h2 /\
  (Forall (fun c => 0 <= c) h1 -> Forall (fun c => 0 <= c) h2 -> h1 = h2).
Proof.
  intros h1 h2.
  assert (length h1 = Z.to_nat MAXVAL) as Hlen1 by reflexivity.
  assert (length h2 = Z.to_nat MAXVAL) as Hlen2 by reflexivity.
  assert (Sparse_JSON_Emitter h1 = Sparse_JSON_Emitter h2) as Heq
    by (vm_compute; reflexivity).
  split; [exact (conj Hlen1 (conj Hlen2 Heq))|].
  exact (output_determines_histogram h1 h2 Hlen1 Hlen2 Heq).
Defined.
